(** * lazy.cc: single-assignment lazy values, their combinators and the
      ucontext coroutine bridge

    The program keeps every [Lazy<T>::Impl] and every [Wait] behind a
    [boost::shared_ptr]; closures made with [boost::bind] hold such pointers
    and are stored inside the objects they point to.  The embedding therefore
    has a store of cells addressed by location, closures as a data type
    (one constructor per [boost::bind] expression), and every member function
    as a function on the store.  An indirect call through a stored
    [boost::function] is the only source of recursion; it is the parameter
    [call] of section [Code], closed afterwards by [call], which counts such
    calls with fuel. *)

From stdpp Require Import base numbers list strings.

Local Open Scope Z_scope.

(** ** C++ [int] *)

Definition INT_MIN : Z := -2147483648.
Definition INT_MAX : Z := 2147483647.

Definition in_int (z : Z) : bool := (INT_MIN <=? z) && (z <=? INT_MAX).

(** ** Data *)

(** A [boost::shared_ptr<Impl>] / [boost::shared_ptr<Wait>]: an index into
    the store.  A [Lazy<T>] handle is its [p_impl_]. *)
Abbreviation loc := nat (only parsing).

(** [enum State] *)
Inductive State : Type :=
| LAZY_NOT_READY
| LAZY_READY
| LAZY_FAIL.

Global Instance State_eq_dec : EqDecision State.
Proof. solve_decision. Defined.

(** [boost::function<void(T)>] with [T = int]: the closures the program
    binds, and two closures of client code.  Bound objects of arity zero
    ([one_ready], [__async_continue]) ignore the argument they are given. *)
Inductive callback1 : Type :=
| bind_operator_plus_step1 (result : loc) (b : loc)
    (* boost::bind(&Impl::operator_plus_step1, result.p_impl_, _1, b) *)
| bind_operator_plus_step2 (self : loc)
    (* boost::bind(&Impl::operator_plus_step2, this->shared_from_this(), _1) *)
| bind_one_ready (w : loc)
    (* boost::bind(&Wait::one_ready, shared_from_this()) *)
| bind_async_continue
    (* boost::bind(&__async_continue) *)
| bind_print (name : string)
    (* boost::bind(&print, name, _1) *)
| bind_on_ready (c : loc) (cb : callback1).
    (* boost::bind(&Lazy<int>::on_ready, c, cb) *)

(** [boost::function<void()>]: fail callbacks and jobs of client code. *)
Inductive callback0 : Type :=
| bind_print_of (name : string) (a : Z).
    (* boost::bind(&print, name, a) *)

(** [struct Impl].  A [boost::signals2::signal] is kept as the ordered
    list of its connected slots. *)
Record Impl : Type := mkImpl {
  state_ : State;
  value_ : Z;
  ready_callbacks_ : list callback1;
  fail_callbacks_ : list callback0
}.

(** [class Wait] *)
Record Wait : Type := mkWait {
  counter_ : Z;
  jobs_ : list callback0
}.

(** A coroutine function, as the sequence of things it does: write a line,
    [__async_wait] a lazy value and go on with what it returned, or return. *)
Inductive coroutine : Type :=
| co_return
| co_print (name : string) (a : Z) (k : coroutine)
| co_async_wait (name : string) (var : loc) (k : Z -> coroutine).

(** Modelled from the spec: [ucontext_t], a library type; what
    [coroutine_context] holds is the routine's "saved context".  A context
    can be resumed once: after that its frame is running or gone, and
    resuming it again is undefined. *)
Inductive ucontext : Type :=
| ctx_invalid
| ctx_entry (coroutine_function : coroutine)
    (* makecontext(&coroutine_context, coroutine_function, 0) *)
| ctx_wait (var : loc) (k : Z -> coroutine).
    (* saved by swapcontext inside __do_async_wait, before [return var.get()] *)

(** The whole program state.  [cout] is what [print] has written, one pair
    per line. *)
Record world : Type := mkWorld {
  heap : list Impl;
  waits : list Wait;
  cout : list (string * Z);
  coroutine_context : ucontext;
  coroutine_finished : Z
}.

Definition empty_world : world := mkWorld [] [] [] ctx_invalid 0.

Definition with_heap (f : list Impl -> list Impl) (w : world) : world :=
  mkWorld (f (heap w)) (waits w) (cout w) (coroutine_context w) (coroutine_finished w).
Definition with_waits (f : list Wait -> list Wait) (w : world) : world :=
  mkWorld (heap w) (f (waits w)) (cout w) (coroutine_context w) (coroutine_finished w).
Definition with_cout (f : list (string * Z) -> list (string * Z)) (w : world) : world :=
  mkWorld (heap w) (waits w) (f (cout w)) (coroutine_context w) (coroutine_finished w).
Definition with_coroutine_context (c : ucontext) (w : world) : world :=
  mkWorld (heap w) (waits w) (cout w) c (coroutine_finished w).
Definition with_coroutine_finished (z : Z) (w : world) : world :=
  mkWorld (heap w) (waits w) (cout w) (coroutine_context w) z.

Definition with_state (s : State) (i : Impl) : Impl :=
  mkImpl s (value_ i) (ready_callbacks_ i) (fail_callbacks_ i).
Definition with_value (v : Z) (i : Impl) : Impl :=
  mkImpl (state_ i) v (ready_callbacks_ i) (fail_callbacks_ i).
(** Modelled from the spec: [boost::signals2::signal::connect], a library
    function whose code is not among the sources; it "appends cb to the
    respective list". *)
Definition connect_ready (cb : callback1) (i : Impl) : Impl :=
  mkImpl (state_ i) (value_ i) (ready_callbacks_ i ++ [cb]) (fail_callbacks_ i).
(** Modelled from the spec: [connect] on the signal of fail callbacks, as
    [connect_ready]. *)
Definition connect_fail (cb : callback0) (i : Impl) : Impl :=
  mkImpl (state_ i) (value_ i) (ready_callbacks_ i) (fail_callbacks_ i ++ [cb]).

(** ** Outcomes and the state monad *)

Inductive fault : Type :=
| AssertionFailed        (* assert(...) does not hold *)
| UndefinedBehaviour     (* int overflow, the end of a value-returning function reached,
                            a context resumed that holds no saved position, a dangling
                            location *)
| IllFormed              (* the member function called is not well-formed C++ *)
| OutOfFuel.

(** A call returns to its caller ([Ok]), leaves through [return_context]
    because the coroutine function returned ([Jump]), or stops the program. *)
Inductive outcome (A : Type) : Type :=
| Ok (a : A) (w : world)
| Jump (w : world)
| Fault (f : fault).
Arguments Ok {A} a w.
Arguments Jump {A} w.
Arguments Fault {A} f.

Definition M (A : Type) : Type := world -> outcome A.

Definition ret {A} (a : A) : M A := fun w => Ok a w.

Definition bind {A B} (m : M A) (k : A -> M B) : M B := fun w =>
  match m w with
  | Ok a w' => k a w'
  | Jump w' => Jump w'
  | Fault f => Fault f
  end.

Notation "'do' x <- m ; k" := (bind m (fun x => k))
  (at level 10, x name, m at level 100, k at level 200).
Notation "m ;; k" := (bind m (fun _ => k))
  (at level 100, k at level 200, right associativity).

Definition throw {A} (f : fault) : M A := fun _ => Fault f.

Definition assert (b : bool) : M unit :=
  if b then ret tt else throw AssertionFailed.

Definition modify (f : world -> world) : M unit := fun w => Ok tt (f w).

(** [x + y] on [int] *)
Definition int_add (x y : Z) : M Z :=
  if in_int (x + y) then ret (x + y) else throw UndefinedBehaviour.

(** [*p] for [p] a [shared_ptr<Impl>] *)
Definition impl (l : loc) : M Impl := fun w =>
  match heap w !! l with
  | Some i => Ok i w
  | None => Fault UndefinedBehaviour
  end.

Definition update_impl (l : loc) (f : Impl -> Impl) : M unit :=
  do i <- impl l ; modify (with_heap <[l := f i]>).

Definition wait (l : loc) : M Wait := fun w =>
  match waits w !! l with
  | Some x => Ok x w
  | None => Fault UndefinedBehaviour
  end.

Definition update_wait (l : loc) (f : Wait -> Wait) : M unit :=
  do x <- wait l ; modify (with_waits <[l := f x]>).

(** [void print(std::string name, int a)] *)
Definition print (name : string) (a : Z) : M unit :=
  modify (with_cout (fun o => o ++ [(name, a)])).

(** Calling a [boost::function<void()>] *)
Definition call0 (cb : callback0) : M unit :=
  match cb with
  | bind_print_of name a => print name a
  end.

(** Modelled from the spec: the invocation [fail_callbacks_()] of a
    [boost::signals2::signal<void()>], a library function whose code is not
    among the sources; it "invokes every registered fail-callback in
    registration order".  [BOOST_FOREACH (job, jobs_) job()] walks [jobs_]
    the same way; no closure of [callback0] touches the list that is being
    walked. *)
Fixpoint call_all0 (slots : list callback0) : M unit :=
  match slots with
  | [] => ret tt
  | s :: rest => call0 s ;; call_all0 rest
  end.

(** ** The member functions

    [call] is a call through a stored [boost::function<void(T)>]. *)

Section Code.

Variable call : callback1 -> Z -> M unit.

(** Modelled from the spec: the invocation [ready_callbacks_(v)] of a
    [boost::signals2::signal<void(T)>], a library function whose code is not
    among the sources; it "invokes every registered ready-callback in
    registration order, synchronously, passing value", and "the firing list
    is a snapshot at invocation start": the slots connected when the
    invocation starts, in connection order, each with the same argument
    [v]. *)
Fixpoint signal_call (slots : list callback1) (v : Z) : M unit :=
  match slots with
  | [] => ret tt
  | s :: rest => call s v ;; signal_call rest v
  end.

(** [Impl::on_ready], reached through [Lazy::on_ready] *)
Definition on_ready (l : loc) (ready_callback : callback1) : M unit :=
  update_impl l (connect_ready ready_callback) ;;
  do i <- impl l ;
  if decide (state_ i = LAZY_READY) then call ready_callback (value_ i)
  else ret tt.

(** [Impl::on_fail], reached through [Lazy::on_fail] *)
Definition on_fail (l : loc) (fail_callback : callback0) : M unit :=
  update_impl l (connect_fail fail_callback) ;;
  do i <- impl l ;
  if decide (state_ i = LAZY_FAIL) then call0 fail_callback
  else ret tt.

(** [Impl::emit_ready], reached through [Lazy::emit_ready] *)
Definition emit_ready (l : loc) : M unit :=
  update_impl l (with_state LAZY_READY) ;;
  do i <- impl l ;
  signal_call (ready_callbacks_ i) (value_ i).

(** [Impl::emit_fail], reached through [Lazy::emit_fail].  Its first
    statement is [p_impl_->state_ = LAZY_FAIL], and [p_impl_] is a member of
    [Lazy], not of [Impl]: the member function is ill-formed, and a program
    that calls it is not compiled.  No call of it has an outcome; in
    particular no function sets [LAZY_FAIL]. *)
Definition emit_fail (l : loc) : M unit :=
  @throw unit IllFormed ;;
  do i <- impl l ;
  call_all0 (fail_callbacks_ i).

(** [Impl::operator_plus_step2] *)
Definition operator_plus_step2 (l : loc) (b : Z) : M unit :=
  do i <- impl l ;
  do s <- int_add (value_ i) b ;
  update_impl l (with_value s) ;;
  emit_ready l.

(** [Impl::operator_plus_step1] *)
Definition operator_plus_step1 (l : loc) (a : Z) (b : loc) : M unit :=
  update_impl l (with_value a) ;;
  on_ready b (bind_operator_plus_step2 l).

(** [explicit Lazy()] *)
Definition Lazy_new : M loc := fun w =>
  Ok (length (heap w)) (with_heap (fun h => h ++ [mkImpl LAZY_NOT_READY 0 [] []]) w).

(** [Lazy(const T& value)] *)
Definition Lazy_of (value : Z) : M loc :=
  do l <- Lazy_new ;
  update_impl l (with_value value) ;;
  emit_ready l ;;
  ret l.

(** [Lazy::get] *)
Definition get (l : loc) : M Z :=
  do i <- impl l ;
  assert (bool_decide (state_ i = LAZY_READY)) ;;
  ret (value_ i).

(** [Lazy::operator=(const T& value)] *)
Definition assign (l : loc) (value : Z) : M unit :=
  do i <- impl l ;
  assert (bool_decide (state_ i = LAZY_NOT_READY)) ;;
  update_impl l (with_value value) ;;
  emit_ready l.

(** [Lazy::operator+] *)
Definition operator_plus (l : loc) (b : loc) : M loc :=
  do result <- Lazy_new ;
  on_ready l (bind_operator_plus_step1 result b) ;;
  ret result.

(** [Wait::Wait()] *)
Definition Wait_new : M loc := fun w =>
  Ok (length (waits w)) (with_waits (fun ws => ws ++ [mkWait 0 []]) w).

(** [Wait::operator()(Lazy<T>&)] *)
Definition Wait_watch (wl : loc) (lazy_value : loc) : M unit :=
  do x <- wait wl ;
  do c <- int_add (counter_ x) 1 ;
  update_wait wl (fun x => mkWait c (jobs_ x)) ;;
  on_ready lazy_value (bind_one_ready wl).

(** [Wait::run].  The source declares a [Wait&] result and has no [return]
    statement: after the body, control reaches the end of a value-returning
    function, which is undefined behaviour on every call. *)
Definition Wait_run (wl : loc) (job : callback0) : M unit :=
  update_wait wl (fun x => mkWait (counter_ x) (jobs_ x ++ [job])) ;;
  do x <- wait wl ;
  (if decide (counter_ x = 0) then call0 job else ret tt) ;;
  throw UndefinedBehaviour.

(** [Wait::one_ready] *)
Definition one_ready (wl : loc) : M unit :=
  do x <- wait wl ;
  do c <- int_add (counter_ x) (-1) ;
  update_wait wl (fun x => mkWait c (jobs_ x)) ;;
  do x <- wait wl ;
  if decide (counter_ x = 0) then call_all0 (jobs_ x) else ret tt.

(** [__do_async_wait] up to its [swapcontext]: the callback is registered,
    the coroutine's position ([return var.get()], then [k]) is saved in
    [coroutine_context], and [main_context] goes on: the call that resumed
    the coroutine returns. *)
Definition __do_async_wait (name : string) (var : loc) (k : Z -> coroutine) : M unit :=
  on_ready var bind_async_continue ;;
  modify (with_coroutine_context (ctx_wait var k)).

(** The coroutine function running on its own stack until it waits or
    returns; on return [uc_link] passes control to [return_context]. *)
Fixpoint run_coroutine (f : coroutine) : M unit :=
  match f with
  | co_return => fun w => Jump w
  | co_print name a k => print name a ;; run_coroutine k
  | co_async_wait name var k => __do_async_wait name var k
  end.

(** Modelled from the spec: [swapcontext(&main_context,
    &coroutine_context)], a library function; the "driver explicitly hands
    off", and control is back in the driver when the routine "calls
    awaitValue (suspend) or reaches its end".  A saved position is followed
    once: what a second switch to the same saved position does depends on the
    coroutine's stack as it is by then, which the embedding does not hold,
    and no statement below goes through such a switch. *)
Definition swapcontext_main_coroutine : M unit := fun w =>
  match coroutine_context w with
  | ctx_invalid => Fault UndefinedBehaviour
  | ctx_entry f => run_coroutine f (with_coroutine_context ctx_invalid w)
  | ctx_wait var k =>
      (do v <- get var ; run_coroutine (k v)) (with_coroutine_context ctx_invalid w)
  end.

(** [__async_continue] *)
Definition __async_continue : M unit := swapcontext_main_coroutine.

(** [START_COROUTINE_AND_RUN_ONCE(coroutine_function) block].  The [if] is
    evaluated with [coroutine_finished = 0] first: the flag is set and the
    coroutine entered; when it waits, [swapcontext] returns 0 and the [else]
    block runs.  Control that comes back through [return_context] evaluates
    the [if] again, with the flag set, and leaves the statement; with the
    flag at 0 it would switch to a context that is no longer valid. *)
Definition START_COROUTINE_AND_RUN_ONCE (coroutine_function : coroutine) (block : M unit) : M unit :=
  fun w =>
  let w0 := with_coroutine_context (ctx_entry coroutine_function)
              (with_coroutine_finished 0 w) in
  match (modify (with_coroutine_finished 1) ;; swapcontext_main_coroutine ;; block) w0 with
  | Ok _ w' => Ok tt w'
  | Jump w' =>
      if decide (coroutine_finished w' = 0) then Fault UndefinedBehaviour else Ok tt w'
  | Fault f => Fault f
  end.

(** The body of each closure *)
Definition apply1 (cb : callback1) (v : Z) : M unit :=
  match cb with
  | bind_operator_plus_step1 result b => operator_plus_step1 result v b
  | bind_operator_plus_step2 self => operator_plus_step2 self v
  | bind_one_ready w => one_ready w
  | bind_async_continue => __async_continue
  | bind_print name => print name v
  | bind_on_ready c cb => on_ready c cb
  end.

End Code.

(** Calls through stored closures, at most [fuel] deep. *)
Fixpoint call (fuel : nat) (cb : callback1) (v : Z) : M unit :=
  match fuel with
  | O => throw OutOfFuel
  | S n => apply1 (call n) cb v
  end.

(** ** Vocabulary of the statements *)

(** The line a closure of [callback0] writes. *)
Definition line0 (cb : callback0) : string * Z :=
  match cb with
  | bind_print_of name a => (name, a)
  end.

(** Cell [l] holds [i]; everything else as in [w]. *)
Definition put (l : loc) (i : Impl) (w : world) : world := with_heap <[l := i]> w.

(** Barrier [l] holds [x]; everything else as in [w]. *)
Definition put_wait (l : loc) (x : Wait) (w : world) : world := with_waits <[l := x]> w.

(** One more cell, [i], behind those of [w]. *)
Definition alloc (i : Impl) (w : world) : world := with_heap (fun h => h ++ [i]) w.

(** [lines] more lines on [cout]. *)
Definition printed (lines : list (string * Z)) (w : world) : world :=
  with_cout (fun o => o ++ lines) w.

(** The lines [bind_print n] writes for each [n] of [names], called with [v]. *)
Definition lines (names : list string) (v : Z) : list (string * Z) :=
  map (fun n => (n, v)) names.

(** A cell that has left [LAZY_NOT_READY]. *)
Definition terminal (i : Impl) : Prop := state_ i <> LAZY_NOT_READY.

(** Every cell that is terminal in [w] is a terminal cell of [w']. *)
Definition keeps_terminal (w w' : world) : Prop :=
  forall l i, heap w !! l = Some i -> terminal i ->
    exists i', heap w' !! l = Some i' /\ terminal i'.

Definition outcome_keeps_terminal {A} (w : world) (r : outcome A) : Prop :=
  match r with
  | Ok _ w' | Jump w' => keeps_terminal w w'
  | Fault _ => True
  end.

(** However [m] ends, no terminal cell is [LAZY_NOT_READY] again. *)
Definition never_reverts {A} (m : M A) : Prop :=
  forall w, outcome_keeps_terminal w (m w).

(** One round of a barrier for each future of the list: watch it, then
    assign it its value. *)
Fixpoint watch_and_assign (call : callback1 -> Z -> M unit) (wl : loc)
    (rounds : list (loc * Z)) : M unit :=
  match rounds with
  | [] => ret tt
  | (f, v) :: rest =>
      Wait_watch call wl f ;; assign call f v ;; watch_and_assign call wl rest
  end.

(** A coroutine function that waits for [a], then for [b], and writes the
    sum of the two values it got: [x = __async_wait(a); y = __async_wait(b);
    print("result", x + y)]. *)
Definition sum_coroutine (a b : loc) : coroutine :=
  co_async_wait "a" a (fun x =>
  co_async_wait "b" b (fun y =>
  co_print "result" (x + y) co_return)).

(** Whatever [m1] does without running out of fuel, [m2] does too. *)
Definition refines {A} (m1 m2 : M A) : Prop :=
  forall w, m1 w <> Fault OutOfFuel -> m2 w = m1 w.

(** [acc + x1 + ... + xn], built from the left as the operator associates:
    each [operator+] takes the result of the one before. *)
Fixpoint plus_all (call : callback1 -> Z -> M unit) (acc : loc) (xs : list loc) : M loc :=
  match xs with
  | [] => ret acc
  | x :: rest => do r <- operator_plus call acc x ; plus_all call r rest
  end.

(** [wait(f1)(f2)...(fn)] *)
Fixpoint watch_all (call : callback1 -> Z -> M unit) (wl : loc) (fs : list loc) : M unit :=
  match fs with
  | [] => ret tt
  | f :: rest => Wait_watch call wl f ;; watch_all call wl rest
  end.

(** [f1 = v1; f2 = v2; ...] *)
Fixpoint assign_all (call : callback1 -> Z -> M unit) (fvs : list (loc * Z)) : M unit :=
  match fvs with
  | [] => ret tt
  | (f, v) :: rest => assign call f v ;; assign_all call rest
  end.

(** A coroutine function that writes the lines [ls] and returns. *)
Fixpoint co_prints (ls : list (string * Z)) : coroutine :=
  match ls with
  | [] => co_return
  | (name, a) :: rest => co_print name a (co_prints rest)
  end.

(** A coroutine function that waits for each value of the list in turn and
    writes it under its name: [print(n1, __async_wait(l1)); ...]. *)
Fixpoint await_all (ws : list (string * loc)) : coroutine :=
  match ws with
  | [] => co_return
  | (name, l) :: rest => co_async_wait name l (fun x => co_print name x (await_all rest))
  end.

(** State and value of every cell of [w] are the same in [w']. *)
Definition same_values (w w' : world) : Prop :=
  forall l i, heap w !! l = Some i ->
    exists i', heap w' !! l = Some i' /\ state_ i' = state_ i /\ value_ i' = value_ i.

(** Nothing is taken away from [w] to [w']: the output, the callbacks of
    every cell and the jobs of every barrier are still there, in front. *)
Definition grows (w w' : world) : Prop :=
  cout w `prefix_of` cout w'
  /\ (forall l i, heap w !! l = Some i ->
        exists i', heap w' !! l = Some i'
          /\ ready_callbacks_ i `prefix_of` ready_callbacks_ i'
          /\ fail_callbacks_ i `prefix_of` fail_callbacks_ i')
  /\ (forall l x, waits w !! l = Some x ->
        exists x', waits w' !! l = Some x' /\ jobs_ x `prefix_of` jobs_ x').

(** However [m] ends, it has only added output, callbacks and jobs. *)
Definition only_grows {A} (m : M A) : Prop :=
  forall w, match m w with
            | Ok _ w' | Jump w' => grows w w'
            | Fault _ => True
            end.

(** Every sum [s + v1 + ... + vk] along the list is an [int]. *)
Fixpoint sums_in_int (s : Z) (vs : list Z) : Prop :=
  match vs with
  | [] => True
  | v :: rest => in_int (s + v) = true /\ sums_in_int (s + v) rest
  end.

(** Cell [l] of [w] is [LAZY_READY] and holds [v]. *)
Definition ready_with (w : world) (l : loc) (v : Z) : Prop :=
  exists i, heap w !! l = Some i /\ state_ i = LAZY_READY /\ value_ i = v.

(** A run of waits, each entry a name, the value waited for and the value
    it is given: what the coroutine waits for, what the driver assigns, and
    the lines the coroutine writes. *)
Definition awaited (ts : list (string * loc * Z)) : list (string * loc) :=
  (fun t => (t.1.1, t.1.2)) <$> ts.
Definition assigned (ts : list (string * loc * Z)) : list (loc * Z) :=
  (fun t => (t.1.2, t.2)) <$> ts.
Definition written (ts : list (string * loc * Z)) : list (string * Z) :=
  (fun t => (t.1.1, t.2)) <$> ts.

(** * Properties *)

Lemma bind_run {A B} (m : M A) (k : A -> M B) w :
  bind m k w = match m w with Ok a w' => k a w' | Jump w' => Jump w' | Fault f => Fault f end.
Proof. reflexivity. Qed.

Lemma assert_true w : assert true w = Ok tt w.
Proof. reflexivity. Qed.

Lemma impl_run w l i : heap w !! l = Some i -> impl l w = Ok i w.
Proof. unfold impl. intros ->. reflexivity. Qed.

Lemma update_impl_run w l i f :
  heap w !! l = Some i -> update_impl l f w = Ok tt (put l (f i) w).
Proof. intros H. unfold update_impl. rewrite bind_run, (impl_run _ _ _ H). reflexivity. Qed.

Lemma wait_run w l x : waits w !! l = Some x -> wait l w = Ok x w.
Proof. unfold wait. intros ->. reflexivity. Qed.

Lemma update_wait_run w l x f :
  waits w !! l = Some x -> update_wait l f w = Ok tt (put_wait l (f x) w).
Proof. intros H. unfold update_wait. rewrite bind_run, (wait_run _ _ _ H). reflexivity. Qed.

Lemma heap_put_eq w l i j : heap w !! l = Some j -> heap (put l i w) !! l = Some i.
Proof. intros H. simpl. apply list_lookup_insert_eq. eauto using lookup_lt_Some. Qed.

Lemma heap_put_ne w l l' i : l <> l' -> heap (put l i w) !! l' = heap w !! l'.
Proof. intros H. simpl. by apply list_lookup_insert_ne. Qed.

Lemma waits_put_wait_eq w l x y :
  waits w !! l = Some y -> waits (put_wait l x w) !! l = Some x.
Proof. intros H. simpl. apply list_lookup_insert_eq. eauto using lookup_lt_Some. Qed.

Lemma put_put w l i j : put l i (put l j w) = put l i w.
Proof. destruct w. unfold put, with_heap. simpl. by rewrite list_insert_insert_eq. Qed.

Lemma printed_printed w xs ys : printed ys (printed xs w) = printed (xs ++ ys) w.
Proof. destruct w. unfold printed, with_cout. simpl. by rewrite app_assoc. Qed.

Lemma printed_nil w : printed [] w = w.
Proof. destruct w. unfold printed, with_cout. simpl. by rewrite app_nil_r. Qed.

Lemma put_printed w l i xs : put l i (printed xs w) = printed xs (put l i w).
Proof. reflexivity. Qed.

Lemma heap_printed xs w : heap (printed xs w) = heap w.
Proof. reflexivity. Qed.

Lemma print_run name a w : print name a w = Ok tt (printed [(name, a)] w).
Proof. reflexivity. Qed.

Lemma call0_run cb w : call0 cb w = Ok tt (printed [line0 cb] w).
Proof. destruct cb. reflexivity. Qed.

Lemma call_all0_run slots w : call_all0 slots w = Ok tt (printed (map line0 slots) w).
Proof.
  revert w. induction slots as [|s rest IH]; intros w; simpl.
  - by rewrite printed_nil.
  - rewrite bind_run, call0_run, IH, printed_printed. reflexivity.
Qed.

(** ** More fuel changes nothing *)

Lemma refines_refl {A} (m : M A) : refines m m.
Proof. intros w _. reflexivity. Qed.

Lemma refines_bind {A B} (m1 m2 : M A) (k1 k2 : A -> M B) :
  refines m1 m2 -> (forall a, refines (k1 a) (k2 a)) -> refines (bind m1 k1) (bind m2 k2).
Proof.
  intros Hm Hk w. rewrite !bind_run. intros H.
  rewrite Hm by (intros E; rewrite E in H; done).
  destruct (m1 w) as [a w'|w'|f]; auto. by apply Hk.
Qed.

Lemma refines_if {A} {P : Prop} (b : {P} + {~ P}) (m1 m2 n1 n2 : M A) :
  refines m1 m2 -> refines n1 n2 ->
  refines (if b then m1 else n1) (if b then m2 else n2).
Proof. by destruct b. Qed.

Ltac refines_step :=
  first
    [ assumption
    | simple apply refines_if
    | simple apply refines_bind; [|intros ?]
    | simple apply refines_refl ].

Section MoreFuel.

Variables call1 call2 : callback1 -> Z -> M unit.
Hypothesis call_refines : forall cb v, refines (call1 cb v) (call2 cb v).

Lemma refines_signal_call slots v :
  refines (signal_call call1 slots v) (signal_call call2 slots v).
Proof.
  induction slots; simpl; [apply refines_refl|].
  apply refines_bind; [apply call_refines | intros _; assumption].
Qed.

Lemma refines_on_ready l cb : refines (on_ready call1 l cb) (on_ready call2 l cb).
Proof. unfold on_ready. repeat refines_step. apply call_refines. Qed.

Lemma refines_emit_ready l : refines (emit_ready call1 l) (emit_ready call2 l).
Proof. unfold emit_ready. repeat refines_step. apply refines_signal_call. Qed.

Lemma refines_operator_plus_step2 l b :
  refines (operator_plus_step2 call1 l b) (operator_plus_step2 call2 l b).
Proof. unfold operator_plus_step2. repeat refines_step. apply refines_emit_ready. Qed.

Lemma refines_operator_plus_step1 l a b :
  refines (operator_plus_step1 call1 l a b) (operator_plus_step1 call2 l a b).
Proof. unfold operator_plus_step1. repeat refines_step. apply refines_on_ready. Qed.

Lemma refines_run_coroutine f : refines (run_coroutine call1 f) (run_coroutine call2 f).
Proof.
  induction f as [|name a k IH|name var k _]; simpl.
  - apply refines_refl.
  - repeat refines_step.
  - unfold __do_async_wait. apply refines_bind; [apply refines_on_ready|].
    intros _. apply refines_refl.
Qed.

Lemma refines_swapcontext_main_coroutine :
  refines (swapcontext_main_coroutine call1) (swapcontext_main_coroutine call2).
Proof.
  intros w. unfold swapcontext_main_coroutine.
  destruct (coroutine_context w) as [|f|var k]; [done| |].
  - apply refines_run_coroutine.
  - apply (refines_bind (get var) (get var)); [apply refines_refl|].
    intros v. apply refines_run_coroutine.
Qed.

Lemma refines_apply1 cb v : refines (apply1 call1 cb v) (apply1 call2 cb v).
Proof.
  destruct cb; simpl;
    auto using refines_operator_plus_step1, refines_operator_plus_step2, refines_refl,
      refines_swapcontext_main_coroutine, refines_on_ready.
Qed.

End MoreFuel.

Lemma call_S fuel cb v : refines (call fuel cb v) (call (S fuel) cb v).
Proof.
  revert cb v. induction fuel as [|n IH]; intros cb v.
  - intros w H. done.
  - cbn [call]. by apply refines_apply1.
Qed.

(** A call that ends with some fuel ends the same way with more. *)
Lemma call_more_fuel n m cb v w :
  (n <= m)%nat -> call n cb v w <> Fault OutOfFuel -> call m cb v w = call n cb v w.
Proof.
  induction 1 as [|m Hle IH]; intros H; [reflexivity|].
  rewrite <- (IH H). apply call_S. by rewrite (IH H).
Qed.

(** ** get *)

Lemma get_run w l i :
  heap w !! l = Some i ->
  get l w = if decide (state_ i = LAZY_READY) then Ok (value_ i) w
            else Fault AssertionFailed.
Proof.
  intros H. unfold get. rewrite bind_run, (impl_run _ _ _ H).
  destruct (decide (state_ i = LAZY_READY)) as [E|E].
  - by rewrite bool_decide_true.
  - by rewrite bool_decide_false.
Qed.

(** C8: [get] returns the stored value of a cell whose state is
    [LAZY_READY]; on a cell that is still [LAZY_NOT_READY], and on one that is
    [LAZY_FAIL], its assertion fails. *)
Theorem get_contract (w : world) (l : loc) (i : Impl) :
  heap w !! l = Some i ->
  get l w = match state_ i with
            | LAZY_READY => Ok (value_ i) w
            | LAZY_NOT_READY | LAZY_FAIL => Fault AssertionFailed
            end.
Proof.
  intros H. rewrite (get_run _ _ _ H).
  destruct (state_ i); reflexivity.
Qed.

Lemma get_contract_witness :
  get 0%nat (mkWorld [mkImpl LAZY_READY 7 [] []] [] [] ctx_invalid 0)
    = Ok 7 (mkWorld [mkImpl LAZY_READY 7 [] []] [] [] ctx_invalid 0)
  /\ get 0%nat (mkWorld [mkImpl LAZY_NOT_READY 0 [] []] [] [] ctx_invalid 0)
    = Fault AssertionFailed
  /\ get 0%nat (mkWorld [mkImpl LAZY_FAIL 0 [] []] [] [] ctx_invalid 0)
    = Fault AssertionFailed.
Proof.
  split; [|split].
  - apply (get_contract _ 0%nat (mkImpl LAZY_READY 7 [] [])). reflexivity.
  - apply (get_contract _ 0%nat (mkImpl LAZY_NOT_READY 0 [] [])). reflexivity.
  - apply (get_contract _ 0%nat (mkImpl LAZY_FAIL 0 [] [])). reflexivity.
Defined.

(** ** Callbacks of a cell *)

Section Unfold.

Variable call : callback1 -> Z -> M unit.

Lemma signal_call_app xs ys v w :
  signal_call call (xs ++ ys) v w = (signal_call call xs v ;; signal_call call ys v) w.
Proof.
  revert w. induction xs as [|x xs IH]; intros w; simpl.
  - reflexivity.
  - rewrite !bind_run. destruct (call x v w); auto.
Qed.

Lemma bind_ret_tt (m : M unit) w : (m ;; ret tt) w = m w.
Proof. rewrite bind_run. destruct (m w) as [[] ?| |]; reflexivity. Qed.

Lemma bind_signal_call_one xs cb v w :
  (signal_call call xs v ;; signal_call call [cb] v) w
    = (signal_call call xs v ;; call cb v) w.
Proof.
  rewrite !bind_run. destruct (signal_call call xs v w); try reflexivity.
  cbn [signal_call]. apply bind_ret_tt.
Qed.

Lemma on_ready_run w l i cb :
  heap w !! l = Some i ->
  on_ready call l cb w
    = if decide (state_ i = LAZY_READY)
      then call cb (value_ i) (put l (connect_ready cb i) w)
      else Ok tt (put l (connect_ready cb i) w).
Proof.
  intros H. unfold on_ready.
  rewrite bind_run, (update_impl_run _ _ _ _ H).
  rewrite bind_run, (impl_run _ _ (connect_ready cb i)) by eauto using heap_put_eq.
  simpl. destruct (decide (state_ i = LAZY_READY)); reflexivity.
Qed.

Lemma on_fail_run w l i cb :
  heap w !! l = Some i ->
  on_fail l cb w
    = if decide (state_ i = LAZY_FAIL)
      then Ok tt (printed [line0 cb] (put l (connect_fail cb i) w))
      else Ok tt (put l (connect_fail cb i) w).
Proof.
  intros H. unfold on_fail.
  rewrite bind_run, (update_impl_run _ _ _ _ H).
  rewrite bind_run, (impl_run _ _ (connect_fail cb i)) by eauto using heap_put_eq.
  simpl. destruct (decide (state_ i = LAZY_FAIL)); [apply call0_run | reflexivity].
Qed.

Lemma emit_ready_run w l i :
  heap w !! l = Some i ->
  emit_ready call l w
    = signal_call call (ready_callbacks_ i) (value_ i) (put l (with_state LAZY_READY i) w).
Proof.
  intros H. unfold emit_ready.
  rewrite bind_run, (update_impl_run _ _ _ _ H).
  rewrite bind_run, (impl_run _ _ (with_state LAZY_READY i)) by eauto using heap_put_eq.
  reflexivity.
Qed.

Lemma emit_fail_run w l : emit_fail l w = Fault IllFormed.
Proof. reflexivity. Qed.

Lemma assign_run w l i v :
  heap w !! l = Some i -> state_ i = LAZY_NOT_READY ->
  assign call l v w
    = signal_call call (ready_callbacks_ i) v
        (put l (mkImpl LAZY_READY v (ready_callbacks_ i) (fail_callbacks_ i)) w).
Proof.
  intros H E. unfold assign.
  rewrite bind_run, (impl_run _ _ _ H), E.
  rewrite bool_decide_true, bind_run, assert_true by done.
  rewrite bind_run, (update_impl_run _ _ _ _ H).
  rewrite (emit_ready_run _ _ (with_value v i)) by eauto using heap_put_eq.
  rewrite put_put. reflexivity.
Qed.

Lemma assign_rejected w l i v :
  heap w !! l = Some i -> state_ i <> LAZY_NOT_READY ->
  assign call l v w = Fault AssertionFailed.
Proof.
  intros H E. unfold assign.
  rewrite bind_run, (impl_run _ _ _ H).
  rewrite bool_decide_false by done. reflexivity.
Qed.

End Unfold.

Lemma signal_call_prints fuel names v w :
  signal_call (call (S fuel)) (map bind_print names) v w = Ok tt (printed (lines names v) w).
Proof.
  revert w. induction names as [|n names IH]; intros w; simpl.
  - by rewrite printed_nil.
  - rewrite bind_run, print_run, IH, printed_printed. reflexivity.
Qed.

(** ** emit_fail *)

(** C7: the code has no [fail()] that can be called.  [Impl::emit_fail]
    writes the state through [p_impl_], which [Impl] does not have, so a
    program that calls [emit_fail] is ill-formed: on no cell, in no state,
    does a call set [LAZY_FAIL], call a fail callback, or return. *)
Theorem emit_fail_is_ill_formed (l : loc) (w : world) :
  emit_fail l w = Fault IllFormed.
Proof. reflexivity. Qed.

(** ** Assignment calls the ready callbacks *)

Lemma call_on_ready_print fuel w l i late v :
  heap w !! l = Some i -> state_ i = LAZY_READY ->
  call (S (S fuel)) (bind_on_ready l (bind_print late)) v w
    = Ok tt (printed [(late, value_ i)] (put l (connect_ready (bind_print late) i) w)).
Proof.
  intros H E. simpl. rewrite (on_ready_run _ _ _ _ _ H).
  destruct (decide (state_ i = LAZY_READY)); [reflexivity | done].
Qed.

(** C1, as the code has it: on a cell that is [LAZY_NOT_READY],
    registration adds the callback behind those already connected and calls
    nothing.  Assigning [v] then sets the state to [LAZY_READY], stores [v],
    and calls the callbacks that are connected at that moment, first to
    last, each with [v], each one once the callbacks in front of it have
    returned: whatever the callbacks are, the one behind a front part that
    has returned is called next, with [v], in the store the front part has
    left; and when the front part does not return, because a callback in it
    resumes the coroutine and the coroutine function returns, the assignment
    ends there and nothing behind is called.  Callbacks that print write
    their lines in registration order.  A callback that one of them
    registers on the same cell meanwhile is called once, by [on_ready]
    itself as the cell is already [LAZY_READY], and is connected afterwards;
    the invocation under way does not call it, the callbacks behind the
    registering one follow directly. *)
Theorem assign_calls_connected_in_order
    (fuel : nat) (w : world) (l : loc) (i : Impl) (v : Z) :
  heap w !! l = Some i -> state_ i = LAZY_NOT_READY ->
  (forall call cb, on_ready call l cb w = Ok tt (put l (connect_ready cb i) w))
  /\ (forall call,
        assign call l v w
          = signal_call call (ready_callbacks_ i) v
              (put l (mkImpl LAZY_READY v (ready_callbacks_ i) (fail_callbacks_ i)) w))
  /\ (forall names,
        ready_callbacks_ i = map bind_print names ->
        assign (call (S fuel)) l v w
          = Ok tt (printed (lines names v)
                     (put l (mkImpl LAZY_READY v (ready_callbacks_ i) (fail_callbacks_ i)) w)))
  /\ (forall pre late post,
        ready_callbacks_ i
          = map bind_print pre ++ bind_on_ready l (bind_print late) :: map bind_print post ->
        assign (call (S (S fuel))) l v w
          = Ok tt (printed (lines pre v ++ (late, v) :: lines post v)
                     (put l (mkImpl LAZY_READY v (ready_callbacks_ i ++ [bind_print late])
                                (fail_callbacks_ i)) w)))
  /\ (forall call pre cb post w1,
        ready_callbacks_ i = pre ++ cb :: post ->
        signal_call call pre v
            (put l (mkImpl LAZY_READY v (ready_callbacks_ i) (fail_callbacks_ i)) w)
          = Ok tt w1 ->
        assign call l v w = (call cb v ;; signal_call call post v) w1)
  /\ (forall call pre post w1,
        ready_callbacks_ i = pre ++ post ->
        signal_call call pre v
            (put l (mkImpl LAZY_READY v (ready_callbacks_ i) (fail_callbacks_ i)) w)
          = Jump w1 ->
        assign call l v w = Jump w1).
Proof.
  intros H E. repeat apply conj.
  - intros call' cb. rewrite (on_ready_run _ _ _ _ _ H).
    destruct (decide (state_ i = LAZY_READY)); [congruence | reflexivity].
  - intros call'. by apply assign_run.
  - intros names Hcbs. rewrite (assign_run _ _ _ _ _ H E), Hcbs.
    apply signal_call_prints.
  - intros pre late post Hcbs. rewrite (assign_run _ _ _ _ _ H E), Hcbs.
    rewrite signal_call_app, bind_run, signal_call_prints.
    cbn [signal_call]. rewrite bind_run.
    set (i' := mkImpl LAZY_READY v _ _).
    rewrite (call_on_ready_print _ _ l i');
      [ | rewrite heap_printed; eauto using heap_put_eq | reflexivity ].
    rewrite signal_call_prints, !put_printed, !printed_printed, put_put.
    subst i'. unfold connect_ready. simpl. rewrite <- app_assoc. reflexivity.
  - intros call' pre cb post w1 Hcbs Hpre.
    rewrite (assign_run _ _ _ _ _ H E).
    rewrite Hcbs at 1. rewrite signal_call_app, bind_run, Hpre. reflexivity.
  - intros call' pre post w1 Hcbs Hpre.
    rewrite (assign_run _ _ _ _ _ H E).
    rewrite Hcbs at 1. rewrite signal_call_app, bind_run, Hpre. reflexivity.
Qed.

Lemma assign_calls_connected_in_order_witness :
  assign (call 2) 0%nat 42
      (mkWorld [mkImpl LAZY_NOT_READY 0
                  [bind_print "c1"; bind_on_ready 0%nat (bind_print "late"); bind_print "c3"]
                  []] [] [] ctx_invalid 0)
    = Ok tt
      (mkWorld [mkImpl LAZY_READY 42
                  [bind_print "c1"; bind_on_ready 0%nat (bind_print "late"); bind_print "c3";
                   bind_print "late"]
                  []] [] [("c1", 42); ("late", 42); ("c3", 42)] ctx_invalid 0).
Proof.
  apply (proj1 (proj2 (proj2 (proj2 (assign_calls_connected_in_order 0
           (mkWorld [mkImpl LAZY_NOT_READY 0
                       [bind_print "c1"; bind_on_ready 0%nat (bind_print "late");
                        bind_print "c3"] []] [] [] ctx_invalid 0)
           0%nat
           (mkImpl LAZY_NOT_READY 0
              [bind_print "c1"; bind_on_ready 0%nat (bind_print "late"); bind_print "c3"] [])
           42 eq_refl eq_refl))))
           ["c1"] "late" ["c3"] eq_refl).
Defined.

(** C1 as stated fails: [c1] is registered, a coroutine is started that
    waits for the cell and returns once it has the value, [c3] is
    registered, and the cell is assigned 42.  [c1] is called; the
    coroutine's callback, second in the list, resumes the coroutine, the
    coroutine function returns, control leaves the assignment through
    [return_context], and [c3] is never called. *)
Lemma callback_behind_finished_coroutine_not_called :
  (on_ready (call 1) 0%nat (bind_print "c1") ;;
   START_COROUTINE_AND_RUN_ONCE (call 1)
     (co_async_wait "a" 0%nat (fun _ => co_return))
     (on_ready (call 1) 0%nat (bind_print "c3") ;; assign (call 1) 0%nat 42))
      (mkWorld [mkImpl LAZY_NOT_READY 0 [] []] [] [] ctx_invalid 0)
    = Ok tt
      (mkWorld [mkImpl LAZY_READY 42
                  [bind_print "c1"; bind_async_continue; bind_print "c3"] []] []
               [("c1", 42)] ctx_invalid 1).
Proof. reflexivity. Qed.

(** ** Registration *)

(** C3, as the code has it: [on_ready] always connects the callback.  On a
    cell that is [LAZY_READY] it then calls it at once with the stored value,
    one call per registration, and the callback stays connected.  On a cell
    that is [LAZY_NOT_READY] nothing is called at registration; the
    assignment that follows calls the callbacks registered before it and
    then, provided they return, the callback, once and with the assigned
    value: whatever those callbacks are, the assignment is their invocation
    followed by one call of the callback, and when they only print, the
    callback's line is the last one written. *)
Theorem on_ready_connects_and_calls
    (fuel : nat) (w : world) (l : loc) (i : Impl) (name : string) :
  heap w !! l = Some i ->
  (state_ i = LAZY_READY ->
     (forall call cb,
        on_ready call l cb w = call cb (value_ i) (put l (connect_ready cb i) w))
     /\ on_ready (call (S fuel)) l (bind_print name) w
          = Ok tt (printed [(name, value_ i)]
                     (put l (connect_ready (bind_print name) i) w)))
  /\ (state_ i = LAZY_NOT_READY ->
      (forall call cb v,
         on_ready call l cb w = Ok tt (put l (connect_ready cb i) w)
         /\ assign call l v (put l (connect_ready cb i) w)
              = (signal_call call (ready_callbacks_ i) v ;; call cb v)
                  (put l (mkImpl LAZY_READY v (ready_callbacks_ i ++ [cb])
                            (fail_callbacks_ i)) w))
      /\ (forall names v,
            ready_callbacks_ i = map bind_print names ->
            assign (call (S fuel)) l v (put l (connect_ready (bind_print name) i) w)
              = Ok tt (printed (lines (names ++ [name]) v)
                         (put l (mkImpl LAZY_READY v
                                   (ready_callbacks_ i ++ [bind_print name])
                                   (fail_callbacks_ i)) w)))).
Proof.
  intros H. split.
  - intros E. split.
    + intros call' cb. rewrite (on_ready_run _ _ _ _ _ H).
      destruct (decide (state_ i = LAZY_READY)); [reflexivity | done].
    + rewrite (on_ready_run _ _ _ _ _ H).
      destruct (decide (state_ i = LAZY_READY)); [reflexivity | done].
  - intros E. split.
    + intros call' cb v. split.
      * rewrite (on_ready_run _ _ _ _ _ H).
        destruct (decide (state_ i = LAZY_READY)); [congruence | reflexivity].
      * rewrite (assign_run _ _ _ (connect_ready cb i)) by eauto using heap_put_eq.
        simpl. rewrite put_put, signal_call_app. apply bind_signal_call_one.
    + intros names v Hcbs.
      rewrite (assign_run _ _ _ (connect_ready (bind_print name) i))
        by eauto using heap_put_eq.
      simpl. rewrite put_put, Hcbs.
      change [bind_print name] with (map bind_print [name]).
      rewrite <- map_app. apply signal_call_prints.
Qed.

Lemma on_ready_connects_and_calls_witness :
  on_ready (call 1) 0%nat (bind_print "cb")
      (mkWorld [mkImpl LAZY_READY 7 [bind_print "old"] []] [] [] ctx_invalid 0)
    = Ok tt (mkWorld [mkImpl LAZY_READY 7 [bind_print "old"; bind_print "cb"] []] []
               [("cb", 7)] ctx_invalid 0)
  /\ assign (call 1) 0%nat 9
       (mkWorld [mkImpl LAZY_NOT_READY 0 [bind_print "old"; bind_print "cb"] []] []
          [] ctx_invalid 0)
     = Ok tt (mkWorld [mkImpl LAZY_READY 9 [bind_print "old"; bind_print "cb"] []] []
                [("old", 9); ("cb", 9)] ctx_invalid 0).
Proof.
  split.
  - apply (proj1 (on_ready_connects_and_calls 0
             (mkWorld [mkImpl LAZY_READY 7 [bind_print "old"] []] [] [] ctx_invalid 0)
             0%nat (mkImpl LAZY_READY 7 [bind_print "old"] []) "cb" eq_refl) eq_refl).
  - apply (proj2 (proj2 (on_ready_connects_and_calls 0
             (mkWorld [mkImpl LAZY_NOT_READY 0 [bind_print "old"] []] [] [] ctx_invalid 0)
             0%nat (mkImpl LAZY_NOT_READY 0 [bind_print "old"] []) "cb" eq_refl)
             eq_refl) ["old"] 9 eq_refl).
Defined.

(** C3 as stated fails: registering on a cell that is [LAZY_READY] does
    connect the callback, next to calling it. *)
Lemma on_ready_on_ready_cell_connects :
  on_ready (call 1) 0%nat (bind_print "cb")
      (mkWorld [mkImpl LAZY_READY 7 [] []] [] [] ctx_invalid 0)
    = Ok tt (mkWorld [mkImpl LAZY_READY 7 [bind_print "cb"] []] [] [("cb", 7)] ctx_invalid 0).
Proof. reflexivity. Qed.

(** ** No way back to [LAZY_NOT_READY] *)

Lemma keeps_terminal_refl w : keeps_terminal w w.
Proof. intros l i H T. eauto. Qed.

Lemma keeps_terminal_trans w1 w2 w3 :
  keeps_terminal w1 w2 -> keeps_terminal w2 w3 -> keeps_terminal w1 w3.
Proof.
  intros H12 H23 l i H T.
  destruct (H12 l i H T) as (i' & H' & T'). eauto.
Qed.

Lemma keeps_terminal_same_heap w w' : heap w' = heap w -> keeps_terminal w w'.
Proof. intros E l i H T. rewrite E. eauto. Qed.

Lemma keeps_terminal_put w l i j :
  heap w !! l = Some i -> (terminal i -> terminal j) -> keeps_terminal w (put l j w).
Proof.
  intros H T l' i' H' T'. destruct (decide (l = l')) as [<-|Hne].
  - exists j. split; [eauto using heap_put_eq|].
    assert (i' = i) as -> by congruence. exact (T T').
  - exists i'. by rewrite heap_put_ne.
Qed.

Lemma keeps_terminal_alloc w i :
  keeps_terminal w (with_heap (fun h => h ++ [i]) w).
Proof.
  intros l i' H T. exists i'. split; [|done].
  simpl. by apply lookup_app_l_Some.
Qed.

Lemma never_reverts_ret {A} (a : A) : never_reverts (ret a).
Proof. intros w. apply keeps_terminal_refl. Qed.

Lemma never_reverts_throw {A} f : never_reverts (@throw A f).
Proof. intros w. exact I. Qed.

Lemma never_reverts_bind {A B} (m : M A) (k : A -> M B) :
  never_reverts m -> (forall a, never_reverts (k a)) -> never_reverts (bind m k).
Proof.
  intros Hm Hk w. rewrite bind_run. specialize (Hm w).
  destruct (m w) as [a w'| |]; simpl in *; auto.
  specialize (Hk a w'). destruct (k a w'); simpl in *; eauto using keeps_terminal_trans.
Qed.

Lemma never_reverts_modify f :
  (forall w, heap (f w) = heap w) -> never_reverts (modify f).
Proof. intros H w. apply keeps_terminal_same_heap, H. Qed.

Lemma never_reverts_assert b : never_reverts (assert b).
Proof. destruct b; [apply never_reverts_ret | apply never_reverts_throw]. Qed.

Lemma never_reverts_int_add x y : never_reverts (int_add x y).
Proof.
  unfold int_add. destruct (in_int (x + y)); [apply never_reverts_ret | apply never_reverts_throw].
Qed.

Lemma never_reverts_impl l : never_reverts (impl l).
Proof. intros w. unfold impl. destruct (heap w !! l); simpl; auto using keeps_terminal_refl. Qed.

Lemma never_reverts_update_impl l f :
  (forall i, terminal i -> terminal (f i)) -> never_reverts (update_impl l f).
Proof.
  intros Hf w. unfold update_impl. rewrite bind_run. unfold impl.
  destruct (heap w !! l) as [i|] eqn:H; simpl; [|done].
  apply (keeps_terminal_put w l i); auto.
Qed.

Lemma never_reverts_wait l : never_reverts (wait l).
Proof. intros w. unfold wait. destruct (waits w !! l); simpl; auto using keeps_terminal_refl. Qed.

Lemma never_reverts_update_wait l f : never_reverts (update_wait l f).
Proof.
  apply never_reverts_bind; [apply never_reverts_wait|].
  intros x. by apply never_reverts_modify.
Qed.

Lemma never_reverts_print name a : never_reverts (print name a).
Proof. by apply never_reverts_modify. Qed.

Lemma never_reverts_call0 cb : never_reverts (call0 cb).
Proof. destruct cb. apply never_reverts_print. Qed.

Lemma never_reverts_call_all0 slots : never_reverts (call_all0 slots).
Proof.
  induction slots; simpl;
    auto using never_reverts_ret, never_reverts_bind, never_reverts_call0.
Qed.

Create HintDb reverts.
#[local] Hint Resolve never_reverts_ret never_reverts_throw
  never_reverts_assert never_reverts_int_add never_reverts_impl never_reverts_wait
  never_reverts_update_wait never_reverts_print never_reverts_call0
  never_reverts_call_all0 : reverts.

Ltac reverts_step :=
  first
    [ solve [auto with reverts]
    | simple apply never_reverts_update_impl; unfold terminal; simpl; congruence
    | simple apply never_reverts_modify; reflexivity
    | match goal with
      | |- never_reverts (if ?b then _ else _) => destruct b
      end
    | simple apply never_reverts_bind; [|intros ?] ].

Section NeverReverts.

Variable call : callback1 -> Z -> M unit.
Hypothesis call_never_reverts : forall cb v, never_reverts (call cb v).

Lemma never_reverts_signal_call slots v : never_reverts (signal_call call slots v).
Proof. induction slots; simpl; repeat reverts_step. Qed.
#[local] Hint Resolve call_never_reverts never_reverts_signal_call : reverts.

Lemma never_reverts_on_ready l cb : never_reverts (on_ready call l cb).
Proof. unfold on_ready. repeat reverts_step. Qed.
#[local] Hint Resolve never_reverts_on_ready : reverts.

Lemma never_reverts_on_fail l cb : never_reverts (on_fail l cb).
Proof. unfold on_fail. repeat reverts_step. Qed.

Lemma never_reverts_emit_ready l : never_reverts (emit_ready call l).
Proof. unfold emit_ready. repeat reverts_step. Qed.
#[local] Hint Resolve never_reverts_emit_ready : reverts.

Lemma never_reverts_emit_fail l : never_reverts (emit_fail l).
Proof. unfold emit_fail. repeat reverts_step. Qed.

Lemma never_reverts_operator_plus_step2 l b : never_reverts (operator_plus_step2 call l b).
Proof. unfold operator_plus_step2. repeat reverts_step. Qed.

Lemma never_reverts_operator_plus_step1 l a b : never_reverts (operator_plus_step1 call l a b).
Proof. unfold operator_plus_step1. repeat reverts_step. Qed.

Lemma never_reverts_Lazy_new : never_reverts Lazy_new.
Proof. intros w. apply keeps_terminal_alloc. Qed.
#[local] Hint Resolve never_reverts_Lazy_new : reverts.

Lemma never_reverts_Lazy_of v : never_reverts (Lazy_of call v).
Proof. unfold Lazy_of. repeat reverts_step. Qed.

Lemma never_reverts_get l : never_reverts (get l).
Proof. unfold get. repeat reverts_step. Qed.
#[local] Hint Resolve never_reverts_get : reverts.

Lemma never_reverts_assign l v : never_reverts (assign call l v).
Proof. unfold assign. repeat reverts_step. Qed.

Lemma never_reverts_operator_plus l b : never_reverts (operator_plus call l b).
Proof. unfold operator_plus. repeat reverts_step. Qed.

Lemma never_reverts_Wait_new : never_reverts Wait_new.
Proof. intros w. by apply keeps_terminal_same_heap. Qed.

Lemma never_reverts_Wait_watch wl l : never_reverts (Wait_watch call wl l).
Proof. unfold Wait_watch. repeat reverts_step. Qed.

Lemma never_reverts_Wait_run wl job : never_reverts (Wait_run wl job).
Proof. unfold Wait_run. repeat reverts_step. Qed.

Lemma never_reverts_one_ready wl : never_reverts (one_ready wl).
Proof. unfold one_ready. repeat reverts_step. Qed.

Lemma never_reverts_run_coroutine f : never_reverts (run_coroutine call f).
Proof.
  induction f as [|name a k IH|name var k _]; simpl.
  - intros w. apply keeps_terminal_refl.
  - repeat reverts_step.
  - unfold __do_async_wait. repeat reverts_step.
Qed.
#[local] Hint Resolve never_reverts_run_coroutine : reverts.

Lemma never_reverts_swapcontext_main_coroutine :
  never_reverts (swapcontext_main_coroutine call).
Proof.
  intros w. unfold swapcontext_main_coroutine.
  destruct (coroutine_context w) as [|f|var k]; [exact I| |].
  - apply (never_reverts_bind (modify (with_coroutine_context ctx_invalid))
             (fun _ => run_coroutine call f)); [|intros _]; repeat reverts_step.
  - apply (never_reverts_bind (modify (with_coroutine_context ctx_invalid))
             (fun _ => do v <- get var ; run_coroutine call (k v)));
      [|intros _]; repeat reverts_step.
Qed.
#[local] Hint Resolve never_reverts_swapcontext_main_coroutine : reverts.

Lemma never_reverts_START_COROUTINE_AND_RUN_ONCE f block :
  never_reverts block -> never_reverts (START_COROUTINE_AND_RUN_ONCE call f block).
Proof.
  intros Hb w. unfold START_COROUTINE_AND_RUN_ONCE.
  set (w0 := with_coroutine_context _ _).
  assert (Hm : never_reverts
            (modify (with_coroutine_finished 1) ;; swapcontext_main_coroutine call ;; block)).
  { repeat reverts_step. }
  specialize (Hm w0).
  match type of Hm with
  | outcome_keeps_terminal _ ?r => destruct r as [a w'|w'|]
  end; simpl in *; auto.
  destruct (decide (coroutine_finished w' = 0)); simpl; auto.
Qed.

Lemma never_reverts_apply1 cb v : never_reverts (apply1 call cb v).
Proof.
  destruct cb; simpl;
    auto using never_reverts_operator_plus_step1, never_reverts_operator_plus_step2,
      never_reverts_one_ready, never_reverts_swapcontext_main_coroutine,
      never_reverts_print, never_reverts_on_ready.
Qed.

End NeverReverts.

Lemma never_reverts_call fuel cb v : never_reverts (call fuel cb v).
Proof.
  revert cb v. induction fuel as [|n IH]; intros cb v; simpl.
  - apply never_reverts_throw.
  - by apply never_reverts_apply1.
Qed.

(** ** A second resolution *)

Lemma assign_returns_terminal fuel w l v w1 :
  assign (call fuel) l v w = Ok tt w1 ->
  exists i1, heap w1 !! l = Some i1 /\ terminal i1.
Proof.
  intros Hrun. destruct (heap w !! l) as [i|] eqn:H.
  - destruct (decide (state_ i = LAZY_NOT_READY)) as [E|E].
    + rewrite (assign_run _ _ _ _ _ H E) in Hrun.
      set (i' := mkImpl LAZY_READY v _ _) in Hrun.
      pose proof (never_reverts_signal_call (call fuel) (never_reverts_call fuel)
                    (ready_callbacks_ i) v (put l i' w)) as Hk.
      rewrite Hrun in Hk. apply (Hk l i'); [eauto using heap_put_eq | done].
    + by rewrite (assign_rejected _ _ _ _ _ H E) in Hrun.
  - unfold assign, impl in Hrun. rewrite bind_run, H in Hrun. done.
Qed.

(** The check is in the assignment.  Assigning to a cell that is not
    [LAZY_NOT_READY] fails its assertion, and so does any assignment after
    one that returned, whatever the callbacks did.  No call through a stored
    closure, no member function of a cell or of a barrier and no coroutine
    statement takes a terminal cell back to [LAZY_NOT_READY], however it
    ends. *)
Theorem assign_checks_and_nothing_reverts :
  (forall call w l i v,
     heap w !! l = Some i -> state_ i <> LAZY_NOT_READY ->
     assign call l v w = Fault AssertionFailed)
  /\ (forall fuel w l v w1,
        assign (call fuel) l v w = Ok tt w1 ->
        forall call' v', assign call' l v' w1 = Fault AssertionFailed)
  /\ (forall fuel cb v, never_reverts (call fuel cb v))
  /\ (forall fuel l v, never_reverts (assign (call fuel) l v))
  /\ (forall fuel l, never_reverts (emit_ready (call fuel) l))
  /\ (forall fuel l cb, never_reverts (on_ready (call fuel) l cb))
  /\ (forall l cb, never_reverts (on_fail l cb))
  /\ (forall fuel a b, never_reverts (operator_plus (call fuel) a b))
  /\ (forall fuel v, never_reverts (Lazy_of (call fuel) v))
  /\ (forall fuel wl l, never_reverts (Wait_watch (call fuel) wl l))
  /\ (forall fuel f block,
        never_reverts block ->
        never_reverts (START_COROUTINE_AND_RUN_ONCE (call fuel) f block)).
Proof.
  repeat apply conj.
  - intros call' w l i v H E. by apply (assign_rejected call' w l i).
  - intros fuel w l v w1 Hrun call' v'.
    destruct (assign_returns_terminal _ _ _ _ _ Hrun) as (i1 & H1 & T1).
    by apply (assign_rejected call' w1 l i1).
  - apply never_reverts_call.
  - intros. apply never_reverts_assign, never_reverts_call.
  - intros. apply never_reverts_emit_ready, never_reverts_call.
  - intros. apply never_reverts_on_ready, never_reverts_call.
  - intros. apply never_reverts_on_fail.
  - intros. apply never_reverts_operator_plus, never_reverts_call.
  - intros. apply never_reverts_Lazy_of, never_reverts_call.
  - intros. apply never_reverts_Wait_watch, never_reverts_call.
  - intros fuel f block Hb.
    apply never_reverts_START_COROUTINE_AND_RUN_ONCE; [apply never_reverts_call | exact Hb].
Qed.

Lemma assign_checks_and_nothing_reverts_witness :
  assign (call 1) 0%nat 8
      (mkWorld [mkImpl LAZY_READY 7 [bind_print "cb"] []] [] [("cb", 7)] ctx_invalid 0)
    = Fault AssertionFailed
  /\ assign (call 1) 0%nat 8
       (mkWorld [mkImpl LAZY_READY 7 [bind_print "cb"] []] [] [("cb", 7)] ctx_invalid 0)
     = Fault AssertionFailed.
Proof.
  split.
  - apply (proj1 assign_checks_and_nothing_reverts (call 1)
             (mkWorld [mkImpl LAZY_READY 7 [bind_print "cb"] []] [] [("cb", 7)] ctx_invalid 0)
             0%nat (mkImpl LAZY_READY 7 [bind_print "cb"] []) 8 eq_refl).
    discriminate.
  - apply (proj1 (proj2 assign_checks_and_nothing_reverts) 1%nat
             (mkWorld [mkImpl LAZY_NOT_READY 0 [bind_print "cb"] []] [] [] ctx_invalid 0)
             0%nat 7
             (mkWorld [mkImpl LAZY_READY 7 [bind_print "cb"] []] [] [("cb", 7)] ctx_invalid 0)
             eq_refl (call 1) 8).
Defined.

(** C2: the code does not reject a second resolution through [emit_ready].
    A callback is registered on a new cell, the cell is assigned 7, and
    [emit_ready] is called on it: the call passes no assertion, it returns,
    and the callback has been called a second time.  The assignment beside
    it has the assertion [state_ == LAZY_NOT_READY]; [emit_ready], as public
    as the assignment, has none. *)
Theorem emit_ready_on_ready_cell_returns :
  (do a <- Lazy_new ;
   on_ready (call 1) a (bind_print "cb") ;;
   assign (call 1) a 7 ;;
   emit_ready (call 1) a) empty_world
    = Ok tt
      (mkWorld [mkImpl LAZY_READY 7 [bind_print "cb"] []] [] [("cb", 7); ("cb", 7)]
         ctx_invalid 0).
Proof. reflexivity. Qed.

(** ** Looking up cells and barriers after updates *)

Lemma heap_put_ne_Some w l l' i j :
  l <> l' -> heap w !! l' = Some j -> heap (put l i w) !! l' = Some j.
Proof. intros Hne H. by rewrite heap_put_ne. Qed.

Lemma heap_put_wait_Some w l wl x j :
  heap w !! l = Some j -> heap (put_wait wl x w) !! l = Some j.
Proof. done. Qed.

Lemma heap_printed_Some w l xs j :
  heap w !! l = Some j -> heap (printed xs w) !! l = Some j.
Proof. done. Qed.

Lemma heap_context_Some w l c j :
  heap w !! l = Some j -> heap (with_coroutine_context c w) !! l = Some j.
Proof. done. Qed.

Lemma heap_finished_Some w l z j :
  heap w !! l = Some j -> heap (with_coroutine_finished z w) !! l = Some j.
Proof. done. Qed.

Lemma waits_put_Some w l i wl x :
  waits w !! wl = Some x -> waits (put l i w) !! wl = Some x.
Proof. done. Qed.

Lemma waits_printed_Some w xs wl x :
  waits w !! wl = Some x -> waits (printed xs w) !! wl = Some x.
Proof. done. Qed.

Create HintDb store.
#[local] Hint Resolve heap_put_eq heap_put_ne_Some heap_put_wait_Some heap_printed_Some
  heap_context_Some heap_finished_Some
  waits_put_wait_eq waits_put_Some waits_printed_Some : store.
#[local] Hint Extern 1 (_ <> _) => congruence : store.

(** ** The barrier *)

Lemma Wait_run_run w wl job : Wait_run wl job w = Fault UndefinedBehaviour.
Proof.
  unfold Wait_run. rewrite bind_run.
  destruct (waits w !! wl) as [x|] eqn:H.
  - rewrite (update_wait_run _ _ _ _ H).
    rewrite bind_run, (wait_run _ _ (mkWait (counter_ x) (jobs_ x ++ [job])))
      by eauto with store.
    rewrite bind_run. cbn [counter_].
    destruct (decide (counter_ x = 0)); [rewrite call0_run|]; reflexivity.
  - unfold update_wait, wait. rewrite bind_run, H. reflexivity.
Qed.

Lemma one_ready_run w wl x :
  waits w !! wl = Some x -> in_int (counter_ x + -1) = true ->
  one_ready wl w
    = if decide (counter_ x + -1 = 0)
      then Ok tt (printed (map line0 (jobs_ x))
                    (put_wait wl (mkWait (counter_ x + -1) (jobs_ x)) w))
      else Ok tt (put_wait wl (mkWait (counter_ x + -1) (jobs_ x)) w).
Proof.
  intros H R. unfold one_ready.
  rewrite bind_run, (wait_run _ _ _ H).
  rewrite bind_run. unfold int_add. rewrite R. simpl.
  rewrite bind_run, (update_wait_run _ _ _ _ H).
  rewrite bind_run, (wait_run _ _ (mkWait (counter_ x + -1) (jobs_ x)))
    by eauto with store.
  simpl. destruct (decide (counter_ x + -1 = 0)); [apply call_all0_run | reflexivity].
Qed.

Lemma Wait_watch_run call w wl x l :
  waits w !! wl = Some x -> in_int (counter_ x + 1) = true ->
  Wait_watch call wl l w
    = on_ready call l (bind_one_ready wl)
        (put_wait wl (mkWait (counter_ x + 1) (jobs_ x)) w).
Proof.
  intros H R. unfold Wait_watch.
  rewrite bind_run, (wait_run _ _ _ H).
  rewrite bind_run. unfold int_add. rewrite R. simpl.
  rewrite bind_run, (update_wait_run _ _ _ _ H). reflexivity.
Qed.

Lemma call_one_ready fuel wl v w : call (S fuel) (bind_one_ready wl) v w = one_ready wl w.
Proof. reflexivity. Qed.

Ltac side := first [ solve [eauto 40 with store] | reflexivity | done ].

Ltac fields :=
  cbn [state_ value_ ready_callbacks_ fail_callbacks_ counter_ jobs_ connect_ready
       connect_fail with_state with_value app signal_call
       Z.add Z.opp Z.pos_sub Pos.add Pos.succ Pos.pred_double Z.double Z.succ_double
       Z.pred_double];
  repeat first [ rewrite decide_True by done | rewrite decide_False by done ].

(** ** Jobs stay in the list *)

(** A barrier at zero watches one more future; when that future is
    assigned, the count is back at zero and every job of the list runs. *)
Lemma one_round fuel w wl js f u fs v :
  waits w !! wl = Some (mkWait 0 js) ->
  heap w !! f = Some (mkImpl LAZY_NOT_READY u [] fs) ->
  exists w',
    (Wait_watch (call (S fuel)) wl f ;; assign (call (S fuel)) f v) w = Ok tt w'
    /\ cout w' = cout w ++ map line0 js
    /\ waits w' !! wl = Some (mkWait 0 js)
    /\ (forall g, g <> f -> heap w' !! g = heap w !! g).
Proof.
  intros Hw Hf. eexists. split.
  { rewrite bind_run. erewrite Wait_watch_run; [|side..].
    erewrite on_ready_run; [|side..]. fields.
    erewrite assign_run; [|side..]. fields.
    rewrite bind_run, call_one_ready. erewrite one_ready_run; [|side..]. fields.
    reflexivity. }
  split; [reflexivity|]. split; [side|].
  intros g Hg. rewrite heap_printed. simpl. by rewrite !list_lookup_insert_ne.
Qed.

Lemma watch_and_assign_run fuel wl js rounds : forall w,
  waits w !! wl = Some (mkWait 0 js) ->
  NoDup rounds.*1 ->
  (forall f, f ∈ rounds.*1 ->
     exists u fs, heap w !! f = Some (mkImpl LAZY_NOT_READY u [] fs)) ->
  exists w',
    watch_and_assign (call (S fuel)) wl rounds w = Ok tt w'
    /\ cout w' = cout w ++ concat (replicate (length rounds) (map line0 js))
    /\ waits w' !! wl = Some (mkWait 0 js).
Proof.
  induction rounds as [|[f v] rest IH]; intros w Hw Hnd Hpend.
  - exists w. simpl. by rewrite app_nil_r.
  - simpl in Hnd. apply NoDup_cons in Hnd as [Hnotin Hnd].
    destruct (Hpend f) as (u & fs & Hf); [simpl; left|].
    destruct (one_round fuel w wl js f u fs v Hw Hf) as (w1 & Hrun & Hout & Hw1 & Hother).
    destruct (IH w1 Hw1 Hnd) as (w' & Hrest & Hout' & Hw').
    { intros g Hg. rewrite Hother by (intros ->; done).
      apply Hpend. simpl. by right. }
    exists w'. split; [|split; [|done]].
    + cbn [watch_and_assign]. rewrite bind_run in Hrun.
      rewrite bind_run.
      destruct (Wait_watch (call (S fuel)) wl f w) as [[] w0| |]; try done.
      rewrite bind_run, Hrun. exact Hrest.
    + rewrite Hout', Hout. simpl. by rewrite app_assoc.
Qed.

(** ** Queuing a job *)

(** C5: the code has no [run] that returns.  [Wait::run] is declared to
    return [Wait&] and has no [return] statement, so on every barrier, at
    every count and with every job, a call pushes the job, runs it if the
    count is zero, and then reaches the end of a value-returning function:
    undefined behaviour.  Nothing about a queued job is guaranteed from
    there on. *)
Theorem Wait_run_has_no_return (wl : loc) (job : callback0) (w : world) :
  Wait_run wl job w = Fault UndefinedBehaviour.
Proof. apply Wait_run_run. Qed.

(** C10: a job is queued on a new barrier, where the count is zero, and
    the barrier then goes through any number of rounds of watching a future
    and assigning it.  The rounds are never reached as a defined execution:
    the call of [run] that queues the job ends in undefined behaviour, the
    same missing [return] as in C5. *)
Theorem nothing_defined_after_Wait_run
    (fuel : nat) (job : callback0) (rounds : list (loc * Z)) (w : world) :
  (do wl <- Wait_new ;
   Wait_run wl job ;;
   watch_and_assign (call fuel) wl rounds) w = Fault UndefinedBehaviour.
Proof.
  rewrite bind_run. unfold Wait_new. cbv beta iota.
  rewrite bind_run, Wait_run_run. reflexivity.
Qed.

(** ** What a watched future does to the count *)

Lemma one_ready_counts_down w wl x :
  waits w !! wl = Some x -> in_int (counter_ x - 1) = true ->
  exists w',
    one_ready wl w = Ok tt w'
    /\ waits w' !! wl = Some (mkWait (counter_ x - 1) (jobs_ x))
    /\ heap w' = heap w.
Proof.
  intros H R. rewrite (one_ready_run _ _ _ H) by exact R.
  destruct (decide (counter_ x + -1 = 0)); eexists; (split; [reflexivity|]); split.
  all: first [ reflexivity | side ].
Qed.

(** C6, as the code has it: watching takes the count up by one and
    connects one ready callback of the barrier behind the ready callbacks
    the future has, and nothing to its fail callbacks.  Each call of that
    callback takes the count down by exactly one.  On a future that is
    already [LAZY_READY] the watch calls it at once, and the count is back
    where it was.  Otherwise it is called when the future is assigned, after
    the callbacks connected before it and only if they return: whatever
    those callbacks are, the assignment is their invocation followed by this
    one call; when they only print, the count is back where it was after
    the assignment.  An assignment that returned is not followed by another
    one. *)
Theorem watched_future_counts_down_when_ready
    (fuel : nat) (w : world) (wl : loc) (c : Z) (js : list callback0)
    (f : loc) (i : Impl) :
  waits w !! wl = Some (mkWait c js) ->
  in_int c = true -> in_int (c + 1) = true ->
  heap w !! f = Some i ->
  let w1 := put f (mkImpl (state_ i) (value_ i)
                     (ready_callbacks_ i ++ [bind_one_ready wl]) (fail_callbacks_ i))
              (put_wait wl (mkWait (c + 1) js) w) in
  (state_ i <> LAZY_READY -> Wait_watch (call (S fuel)) wl f w = Ok tt w1)
  /\ (state_ i = LAZY_READY -> Wait_watch (call (S fuel)) wl f w = one_ready wl w1)
  /\ (exists w2, one_ready wl w1 = Ok tt w2 /\ waits w2 !! wl = Some (mkWait c js))
  /\ (forall w' x,
        waits w' !! wl = Some x -> in_int (counter_ x - 1) = true ->
        exists w2,
          one_ready wl w' = Ok tt w2
          /\ waits w2 !! wl = Some (mkWait (counter_ x - 1) (jobs_ x))
          /\ heap w2 = heap w')
  /\ (state_ i = LAZY_NOT_READY ->
      forall v,
        assign (call (S fuel)) f v w1
          = (signal_call (call (S fuel)) (ready_callbacks_ i) v ;; one_ready wl)
              (put f (mkImpl LAZY_READY v (ready_callbacks_ i ++ [bind_one_ready wl])
                        (fail_callbacks_ i))
                 (put_wait wl (mkWait (c + 1) js) w))
        /\ (forall names,
              ready_callbacks_ i = map bind_print names ->
              exists w2,
                assign (call (S fuel)) f v w1 = Ok tt w2
                /\ waits w2 !! wl = Some (mkWait c js))
        /\ (forall w2,
              assign (call (S fuel)) f v w1 = Ok tt w2 ->
              forall call' v', assign call' f v' w2 = Fault AssertionFailed)).
Proof.
  intros Hw Rc Rc1 Hf w1.
  assert (Rc' : in_int (c + 1 - 1) = true) by (by replace (c + 1 - 1) with c by lia).
  assert (Hw1 : waits w1 !! wl = Some (mkWait (c + 1) js)) by (subst w1; side).
  assert (Hf1 : heap w1 !! f
                = Some (mkImpl (state_ i) (value_ i)
                          (ready_callbacks_ i ++ [bind_one_ready wl]) (fail_callbacks_ i)))
    by (subst w1; side).
  assert (Hdown : exists w2, one_ready wl w1 = Ok tt w2
                             /\ waits w2 !! wl = Some (mkWait c js)).
  { destruct (one_ready_counts_down w1 wl _ Hw1 Rc') as (w2 & Hrun & Hc & _).
    exists w2. split; [done|]. rewrite Hc. cbn [counter_ jobs_]. do 2 f_equal. lia. }
  split; [|split; [|split; [|split]]].
  - intros E. erewrite Wait_watch_run; [|side..]. erewrite on_ready_run; [|side..].
    rewrite decide_False by done. reflexivity.
  - intros E. erewrite Wait_watch_run; [|side..]. erewrite on_ready_run; [|side..].
    rewrite decide_True by done. apply call_one_ready.
  - exact Hdown.
  - intros w' x Hx Rx. by apply one_ready_counts_down.
  - intros E v.
    assert (Hrun : assign (call (S fuel)) f v w1
              = (signal_call (call (S fuel)) (ready_callbacks_ i) v ;; one_ready wl)
                  (put f (mkImpl LAZY_READY v (ready_callbacks_ i ++ [bind_one_ready wl])
                            (fail_callbacks_ i))
                     (put_wait wl (mkWait (c + 1) js) w))).
    { rewrite (assign_run _ _ _ _ _ Hf1 E). cbn [ready_callbacks_ fail_callbacks_].
      subst w1. rewrite put_put, signal_call_app.
      rewrite bind_signal_call_one. rewrite !bind_run.
      destruct (signal_call _ _ _ _); reflexivity. }
    split; [exact Hrun|]. split.
    + intros names Hcbs. rewrite Hrun, bind_run, Hcbs, signal_call_prints.
      set (w' := printed _ _).
      assert (Hw' : waits w' !! wl = Some (mkWait (c + 1) js)) by (subst w'; side).
      destruct (one_ready_counts_down w' wl _ Hw' Rc') as (w2 & Hrun2 & Hc & _).
      exists w2. split; [done|]. rewrite Hc. cbn [counter_ jobs_]. do 2 f_equal. lia.
    + intros w2 Hok call' v'.
      destruct (assign_returns_terminal _ _ _ _ _ Hok) as (i1 & H1 & T1).
      by apply (assign_rejected call' w2 f i1).
Qed.

Lemma watched_future_counts_down_when_ready_witness :
  exists w2,
    assign (call 1) 0%nat 5
      (mkWorld [mkImpl LAZY_NOT_READY 0 [bind_print "cb"; bind_one_ready 0%nat] []]
         [mkWait (1 + 1) []] [] ctx_invalid 0) = Ok tt w2
    /\ waits w2 !! 0%nat = Some (mkWait 1 []).
Proof.
  apply (proj1 (proj2 (proj2 (proj2 (proj2 (proj2
           (watched_future_counts_down_when_ready 0
              (mkWorld [mkImpl LAZY_NOT_READY 0 [bind_print "cb"] []] [mkWait 1 []] []
                 ctx_invalid 0)
              0%nat 1 [] 0%nat (mkImpl LAZY_NOT_READY 0 [bind_print "cb"] [])
              eq_refl eq_refl eq_refl eq_refl)))) eq_refl 5)) ["cb"] eq_refl).
Defined.

(** C6 as stated fails: a coroutine waits for a future and returns when it
    has the value; the barrier then watches the future, and the future is
    assigned 5.  The coroutine's callback is in front of the barrier's: it
    resumes the coroutine, the coroutine function returns, control leaves
    the assignment through [return_context], and the barrier's callback is
    never called.  The future is [LAZY_READY] and the count is still 1. *)
Lemma resolved_future_leaves_count :
  (do wl <- Wait_new ;
   do f <- Lazy_new ;
   START_COROUTINE_AND_RUN_ONCE (call 1)
     (co_async_wait "f" f (fun _ => co_return))
     (Wait_watch (call 1) wl f ;; assign (call 1) f 5)) empty_world
    = Ok tt
      (mkWorld [mkImpl LAZY_READY 5 [bind_async_continue; bind_one_ready 0%nat] []]
         [mkWait 1 []] [] ctx_invalid 1).
Proof. reflexivity. Qed.

(** ** Binary compose *)

Lemma heap_alloc_old w i l j : heap w !! l = Some j -> heap (alloc i w) !! l = Some j.
Proof. intros H. simpl. by apply lookup_app_l_Some. Qed.

Lemma heap_alloc_new w i : heap (alloc i w) !! length (heap w) = Some i.
Proof. simpl. rewrite lookup_app_r by lia. by rewrite Nat.sub_diag. Qed.

#[local] Hint Resolve heap_alloc_old heap_alloc_new : store.
#[local] Hint Extern 2 (_ <> _) => lia : store.

Lemma operator_plus_run call w a b :
  operator_plus call a b w
    = (on_ready call a (bind_operator_plus_step1 (length (heap w)) b) ;;
       ret (length (heap w))) (alloc (mkImpl LAZY_NOT_READY 0 [] []) w).
Proof. reflexivity. Qed.

Lemma operator_plus_step1_run call w r ir a b :
  heap w !! r = Some ir ->
  operator_plus_step1 call r a b w
    = on_ready call b (bind_operator_plus_step2 r) (put r (with_value a ir) w).
Proof.
  intros H. unfold operator_plus_step1.
  rewrite bind_run, (update_impl_run _ _ _ _ H). reflexivity.
Qed.

Lemma operator_plus_step2_run call w r ir b :
  heap w !! r = Some ir -> in_int (value_ ir + b) = true ->
  operator_plus_step2 call r b w
    = emit_ready call r (put r (with_value (value_ ir + b) ir) w).
Proof.
  intros H R. unfold operator_plus_step2.
  rewrite bind_run, (impl_run _ _ _ H).
  rewrite bind_run. unfold int_add. rewrite R. simpl.
  rewrite bind_run, (update_impl_run _ _ _ _ H). reflexivity.
Qed.

Lemma call_step1 fuel r b v w :
  call (S fuel) (bind_operator_plus_step1 r b) v w
    = operator_plus_step1 (call fuel) r v b w.
Proof. reflexivity. Qed.

Lemma call_step2 fuel r v w :
  call (S fuel) (bind_operator_plus_step2 r) v w = operator_plus_step2 (call fuel) r v w.
Proof. reflexivity. Qed.

Lemma ret_run {A} (a : A) w : ret a w = Ok a w.
Proof. reflexivity. Qed.

Ltac construct :=
  rewrite operator_plus_run, bind_run; erewrite on_ready_run; [|side..]; fields.

Ltac assign_one :=
  erewrite assign_run; [|side..]; fields; try rewrite bind_run.

Ltac step1 :=
  rewrite call_step1; erewrite operator_plus_step1_run; [|side..];
  erewrite on_ready_run; [|side..]; fields.

Ltac step2 :=
  rewrite call_step2; erewrite operator_plus_step2_run; [|side..];
  erewrite emit_ready_run; [|side..]; fields.





(** ** The coroutine bridge *)

Lemma modify_run f w : modify f w = Ok tt (f w).
Proof. reflexivity. Qed.

Lemma async_wait_suspends call w name var k u cbs fs :
  heap w !! var = Some (mkImpl LAZY_NOT_READY u cbs fs) ->
  run_coroutine call (co_async_wait name var k) w
    = Ok tt (with_coroutine_context (ctx_wait var k)
               (put var (mkImpl LAZY_NOT_READY u (cbs ++ [bind_async_continue]) fs) w)).
Proof.
  intros H. cbn [run_coroutine]. unfold __do_async_wait.
  rewrite bind_run. erewrite on_ready_run; [|exact H]. fields. reflexivity.
Qed.

Lemma swapcontext_entry call w f :
  coroutine_context w = ctx_entry f ->
  swapcontext_main_coroutine call w
    = run_coroutine call f (with_coroutine_context ctx_invalid w).
Proof. intros H. unfold swapcontext_main_coroutine. rewrite H. reflexivity. Qed.

Lemma async_continue_resumes call w var k i :
  coroutine_context w = ctx_wait var k ->
  heap w !! var = Some i -> state_ i = LAZY_READY ->
  __async_continue call w
    = run_coroutine call (k (value_ i)) (with_coroutine_context ctx_invalid w).
Proof.
  intros Hc H E. unfold __async_continue, swapcontext_main_coroutine. rewrite Hc.
  rewrite bind_run. erewrite get_run; [|exact H]. by rewrite decide_True.
Qed.

Lemma call_async_continue fuel v w :
  call (S fuel) bind_async_continue v w = __async_continue (call fuel) w.
Proof. reflexivity. Qed.

Ltac resume :=
  rewrite call_async_continue; erewrite async_continue_resumes; [|side..]; fields.

Ltac suspend := erewrite async_wait_suspends; [|side..].

(** C9: [__async_wait] on a value that is not ready registers
    [__async_continue] on it, saves the coroutine's position and returns
    control to the driver; [__async_continue], called when the value is
    ready, goes on in the coroutine with that value.  The coroutine that adds
    what it gets for [a] and [b], started by the macro with a driver block
    that assigns [va] to [a] and then [vb] to [b]: after the start it is
    suspended on [a] and has written nothing (the flag [coroutine_finished]
    is 1 from the first switch on); the first assignment resumes
    it and leaves it suspended on [b]; the second one resumes it again, it
    writes [va + vb] and returns, and control leaves through
    [return_context].  The statement ends with [coroutine_finished = 1]. *)
Theorem coroutine_adds_awaited_values
    (fuel : nat) (w : world) (a b : loc) (ua ub : Z) (fa fb : list callback0) (va vb : Z) :
  a <> b -> in_int (va + vb) = true ->
  heap w !! a = Some (mkImpl LAZY_NOT_READY ua [] fa) ->
  heap w !! b = Some (mkImpl LAZY_NOT_READY ub [] fb) ->
  (forall call w' name var k u cbs fs,
     heap w' !! var = Some (mkImpl LAZY_NOT_READY u cbs fs) ->
     run_coroutine call (co_async_wait name var k) w'
       = Ok tt (with_coroutine_context (ctx_wait var k)
                  (put var (mkImpl LAZY_NOT_READY u (cbs ++ [bind_async_continue]) fs) w')))
  /\ (forall call w' var k i,
        coroutine_context w' = ctx_wait var k ->
        heap w' !! var = Some i -> state_ i = LAZY_READY ->
        __async_continue call w'
          = run_coroutine call (k (value_ i)) (with_coroutine_context ctx_invalid w'))
  /\ (exists w0 w1 w2,
        START_COROUTINE_AND_RUN_ONCE (call (S fuel)) (sum_coroutine a b) (ret tt) w
          = Ok tt w0
        /\ coroutine_context w0
             = ctx_wait a (fun x =>
                 co_async_wait "b" b (fun y => co_print "result" (x + y) co_return))
        /\ cout w0 = cout w /\ coroutine_finished w0 = 1
        /\ assign (call (S fuel)) a va w0 = Ok tt w1
        /\ coroutine_context w1
             = ctx_wait b (fun y => co_print "result" (va + y) co_return)
        /\ cout w1 = cout w
        /\ assign (call (S fuel)) b vb w1 = Jump w2
        /\ cout w2 = cout w ++ [("result"%string, va + vb)])
  /\ (exists w',
        START_COROUTINE_AND_RUN_ONCE (call (S fuel)) (sum_coroutine a b)
          (assign (call (S fuel)) a va ;; assign (call (S fuel)) b vb) w = Ok tt w'
        /\ cout w' = cout w ++ [("result"%string, va + vb)]
        /\ coroutine_finished w' = 1
        /\ heap w' !! a = Some (mkImpl LAZY_READY va [bind_async_continue] fa)
        /\ heap w' !! b = Some (mkImpl LAZY_READY vb [bind_async_continue] fb)).
Proof.
  intros Hne R Ha Hb. repeat apply conj.
  - intros. by apply async_wait_suspends.
  - intros call' w' var k i Hc H E. exact (async_continue_resumes _ _ _ _ _ Hc H E).
  - eexists _, _, _. split.
    { unfold START_COROUTINE_AND_RUN_ONCE, sum_coroutine.
      rewrite bind_run, modify_run, bind_run.
      erewrite swapcontext_entry; [|reflexivity]. suspend.
      rewrite ret_run. reflexivity. }
    split; [reflexivity|]. split; [reflexivity|]. split; [reflexivity|]. split.
    { assign_one. resume. suspend. reflexivity. }
    split; [reflexivity|]. split; [reflexivity|]. split.
    { assign_one. resume. cbn [run_coroutine]. rewrite bind_run, print_run.
      reflexivity. }
    reflexivity.
  - eexists. split.
    { unfold START_COROUTINE_AND_RUN_ONCE, sum_coroutine.
      rewrite bind_run, modify_run, bind_run.
      erewrite swapcontext_entry; [|reflexivity]. suspend.
      rewrite bind_run. assign_one. resume. suspend. rewrite ret_run.
      assign_one. resume. cbn [run_coroutine]. rewrite bind_run, print_run.
      cbn [coroutine_finished with_coroutine_finished with_coroutine_context printed put
           with_cout with_heap].
      rewrite decide_False by done. reflexivity. }
    split; [reflexivity|]. split; [reflexivity|]. split; side.
Qed.

Lemma coroutine_adds_awaited_values_witness :
  exists w',
    START_COROUTINE_AND_RUN_ONCE (call 1) (sum_coroutine 0%nat 1%nat)
      (assign (call 1) 0%nat 10 ;; assign (call 1) 1%nat 5)
      (mkWorld [mkImpl LAZY_NOT_READY 0 [] []; mkImpl LAZY_NOT_READY 0 [] []] [] []
         ctx_invalid 0) = Ok tt w'
    /\ cout w' = [] ++ [("result"%string, 10 + 5)]
    /\ coroutine_finished w' = 1
    /\ heap w' !! 0%nat = Some (mkImpl LAZY_READY 10 [bind_async_continue] [])
    /\ heap w' !! 1%nat = Some (mkImpl LAZY_READY 5 [bind_async_continue] []).
Proof.
  apply (proj2 (proj2 (proj2 (coroutine_adds_awaited_values 0
           (mkWorld [mkImpl LAZY_NOT_READY 0 [] []; mkImpl LAZY_NOT_READY 0 [] []] [] []
              ctx_invalid 0)
           0%nat 1%nat 0 0 [] [] 10 5 ltac:(discriminate) eq_refl eq_refl eq_refl)))).
Defined.

(** The scenario with 10 and 5, run from two new cells. *)
Example suspension_scenario_10_5 :
  (do a <- Lazy_new ;
   do b <- Lazy_new ;
   START_COROUTINE_AND_RUN_ONCE (call 1) (sum_coroutine a b)
     (assign (call 1) a 10 ;; assign (call 1) b 5)) empty_world
  = Ok tt
      (mkWorld [mkImpl LAZY_READY 10 [bind_async_continue] [];
                mkImpl LAZY_READY 5 [bind_async_continue] []]
               [] [("result"%string, 15)] ctx_invalid 1).
Proof. reflexivity. Qed.

(** The compose scenario with 10 and 5, both ready before [a + b]. *)
Example compose_scenario_10_5 :
  (do a <- Lazy_of (call 2) 10 ;
   do b <- Lazy_of (call 2) 5 ;
   do r <- operator_plus (call 2) a b ;
   get r) empty_world
  = Ok 15
      (mkWorld [mkImpl LAZY_READY 10 [bind_operator_plus_step1 2%nat 1%nat] [];
                mkImpl LAZY_READY 5 [bind_operator_plus_step2 2%nat] [];
                mkImpl LAZY_READY 15 [] []]
               [] [] ctx_invalid 0).
Proof. reflexivity. Qed.

(** * Further properties of the code *)

(** ** Cells made from a value, and cells never given one *)

Lemma put_alloc_new w i j : put (length (heap w)) j (alloc i w) = alloc j w.
Proof.
  destruct w as [h ws o c f]. unfold put, alloc, with_heap. simpl. f_equal.
  rewrite insert_app_r_alt by lia. by rewrite Nat.sub_diag.
Qed.

(** X1: [Lazy(value)] makes a new cell behind the existing ones, already
    [LAZY_READY] with that value and without callbacks; nothing is called
    and no other cell changes; [get] on the new handle returns the value. *)
Theorem Lazy_of_then_get (call : callback1 -> Z -> M unit) (w : world) (v : Z) :
  Lazy_of call v w = Ok (length (heap w)) (alloc (mkImpl LAZY_READY v [] []) w)
  /\ (do l <- Lazy_of call v ; get l) w = Ok v (alloc (mkImpl LAZY_READY v [] []) w)
  /\ (forall l i, heap w !! l = Some i ->
        heap (alloc (mkImpl LAZY_READY v [] []) w) !! l = Some i).
Proof.
  assert (H : Lazy_of call v w
              = Ok (length (heap w)) (alloc (mkImpl LAZY_READY v [] []) w)).
  { unfold Lazy_of. rewrite bind_run.
    change (Lazy_new w) with (Ok (length (heap w)) (alloc (mkImpl LAZY_NOT_READY 0 [] []) w)).
    cbv beta iota.
    rewrite bind_run. erewrite update_impl_run; [|apply heap_alloc_new].
    rewrite put_alloc_new, bind_run.
    erewrite emit_ready_run; [|apply heap_alloc_new].
    rewrite put_alloc_new. reflexivity. }
  split; [exact H|]. split.
  - rewrite bind_run, H. erewrite get_run; [|apply heap_alloc_new]. reflexivity.
  - intros l i Hl. by apply heap_alloc_old.
Qed.

Lemma Lazy_of_then_get_witness :
  (do l <- Lazy_of (call 1) 7 ; get l)
      (mkWorld [mkImpl LAZY_NOT_READY 0 [bind_print "x"] []] [] [] ctx_invalid 0)
    = Ok 7 (mkWorld [mkImpl LAZY_NOT_READY 0 [bind_print "x"] []; mkImpl LAZY_READY 7 [] []]
              [] [] ctx_invalid 0)
  /\ heap (alloc (mkImpl LAZY_READY 7 [] [])
             (mkWorld [mkImpl LAZY_NOT_READY 0 [bind_print "x"] []] [] [] ctx_invalid 0))
        !! 0%nat
      = Some (mkImpl LAZY_NOT_READY 0 [bind_print "x"] []).
Proof.
  split.
  - apply (proj1 (proj2 (Lazy_of_then_get (call 1)
             (mkWorld [mkImpl LAZY_NOT_READY 0 [bind_print "x"] []] [] [] ctx_invalid 0) 7))).
  - apply (proj2 (proj2 (Lazy_of_then_get (call 1)
             (mkWorld [mkImpl LAZY_NOT_READY 0 [bind_print "x"] []] [] [] ctx_invalid 0) 7))
             0%nat (mkImpl LAZY_NOT_READY 0 [bind_print "x"] []) eq_refl).
Defined.

(** X2: a cell made by [Lazy()] holds [T()], which is 0 for [int];
    [emit_ready] on it, without any assignment, makes it [LAZY_READY] and
    hands 0 to the callbacks, and [get] returns 0. *)
Theorem emit_ready_without_value (fuel : nat) (w : world) (name : string) :
  (do l <- Lazy_new ;
   on_ready (call (S fuel)) l (bind_print name) ;;
   emit_ready (call (S fuel)) l ;;
   get l) w
  = Ok 0 (printed [(name, 0)] (alloc (mkImpl LAZY_READY 0 [bind_print name] []) w)).
Proof.
  rewrite bind_run.
  change (Lazy_new w) with (Ok (length (heap w)) (alloc (mkImpl LAZY_NOT_READY 0 [] []) w)).
  cbv beta iota.
  rewrite bind_run. erewrite on_ready_run; [|apply heap_alloc_new].
  rewrite decide_False by done. rewrite put_alloc_new.
  rewrite bind_run. erewrite emit_ready_run; [|apply heap_alloc_new].
  rewrite put_alloc_new.
  cbn [ready_callbacks_ connect_ready with_state value_ app signal_call].
  rewrite bind_run.
  change (call (S fuel) (bind_print name) 0) with (print name 0).
  rewrite print_run, ret_run.
  erewrite get_run; [|rewrite heap_printed; apply heap_alloc_new]. reflexivity.
Qed.

(** ** More on binary compose *)

Ltac same_values_cases a b :=
  let l := fresh "l" in
  let i := fresh "i" in
  let Hl := fresh "Hl" in
  intros l i Hl;
  pose proof (lookup_lt_Some _ _ _ Hl);
  destruct (decide (l = a)) as [->|?];
    [|destruct (decide (l = b)) as [->|?]];
    (eexists; split; [side|]);
    repeat match goal with
           | H1 : ?x = Some ?p, H2 : ?x = Some ?q |- _ =>
               assert (q = p) as -> by congruence; clear H2
           end;
    split; reflexivity.

Lemma plus_of_ready fuel w a b ia ib :
  heap w !! a = Some ia -> heap w !! b = Some ib ->
  state_ ia = LAZY_READY -> state_ ib = LAZY_READY ->
  in_int (value_ ia + value_ ib) = true ->
  exists w',
    operator_plus (call (S (S fuel))) a b w = Ok (length (heap w)) w'
    /\ heap w' !! length (heap w)
       = Some (mkImpl LAZY_READY (value_ ia + value_ ib) [] [])
    /\ length (heap w') = S (length (heap w))
    /\ same_values w w'
    /\ cout w' = cout w.
Proof.
  intros Ha Hb Ea Eb R.
  destruct ia as [sa va ca fa], ib as [sb vb cb fb].
  cbn [state_ value_] in *. subst sa sb.
  pose proof (lookup_lt_Some _ _ _ Ha) as La.
  pose proof (lookup_lt_Some _ _ _ Hb) as Lb.
  destruct (decide (a = b)) as [<-|Hne].
  - assert (vb = va /\ cb = ca /\ fb = fa) as (-> & -> & ->) by (split_and!; congruence).
    eexists. split; [construct; step1; step2; reflexivity|].
    split; [side|]. split; [|split; [|reflexivity]].
    + simpl. rewrite !length_insert, length_app. simpl. lia.
    + same_values_cases a a.
  - eexists. split; [construct; step1; step2; reflexivity|].
    split; [side|]. split; [|split; [|reflexivity]].
    + simpl. rewrite !length_insert, length_app. simpl. lia.
    + same_values_cases a b.
Qed.

Lemma same_values_refl w : same_values w w.
Proof. intros l i H. eauto. Qed.

Lemma same_values_trans w1 w2 w3 :
  same_values w1 w2 -> same_values w2 w3 -> same_values w1 w3.
Proof.
  intros H12 H23 l i H. destruct (H12 l i H) as (i2 & H2 & Es & Ev).
  destruct (H23 l i2 H2) as (i3 & H3 & Es' & Ev'). exists i3. split_and!; congruence.
Qed.

Lemma ready_with_same_values w w' l v :
  same_values w w' -> ready_with w l v -> ready_with w' l v.
Proof.
  intros Hs (i & H & Es & Ev). destruct (Hs l i H) as (i' & H' & Es' & Ev').
  exists i'. split_and!; congruence.
Qed.

(** X4: a sum of values that are all [LAZY_READY] is ready as soon as it
    is built.  [acc + x1 + ... + xn], where every partial sum is an [int], is
    a cell that is [LAZY_READY] with the sum of the values, whatever
    callbacks the operands already have and also when a cell occurs more
    than once; [get] returns the sum, nothing is written, and no cell that
    existed before changes its state or value. *)
Theorem plus_all_of_ready (fuel : nat) (xs : list loc) : forall (vs : list Z) (w : world)
    (acc : loc) (s : Z),
  ready_with w acc s ->
  Forall2 (ready_with w) xs vs ->
  sums_in_int s vs ->
  exists r w',
    plus_all (call (S (S fuel))) acc xs w = Ok r w'
    /\ ready_with w' r (s + foldr Z.add 0 vs)
    /\ get r w' = Ok (s + foldr Z.add 0 vs) w'
    /\ same_values w w'
    /\ cout w' = cout w.
Proof.
  induction xs as [|x rest IH]; intros vs w acc s Hacc Hxs Hsum.
  - apply Forall2_nil_inv_l in Hxs as ->. simpl.
    exists acc, w. rewrite Z.add_0_r.
    destruct Hacc as (i & H & Es & Ev).
    split; [reflexivity|]. split; [by exists i|]. split.
    + rewrite (get_run _ _ _ H), decide_True by done. by rewrite Ev.
    + split; [apply same_values_refl | reflexivity].
  - apply Forall2_cons_inv_l in Hxs as (v & vs' & Hx & Hrest & ->).
    destruct Hsum as [R Hsum].
    destruct Hacc as (ia & Ha & Esa & Eva), Hx as (ix & Hx & Esx & Evx).
    destruct (plus_of_ready fuel w acc x ia ix Ha Hx Esa Esx) as (w1 & Hrun & Hr & _ & Hs & Hout).
    { by rewrite Eva, Evx. }
    rewrite Eva, Evx in Hr.
    destruct (IH vs' w1 (length (heap w)) (s + v)) as (r & w' & Hrun' & Hr' & Hget & Hs' & Hout').
    { eexists. split; [exact Hr|]. done. }
    { eapply Forall2_impl; [exact Hrest|]. intros l u. by apply ready_with_same_values. }
    { exact Hsum. }
    exists r, w'. cbn [plus_all foldr]. rewrite bind_run, Hrun, Z.add_assoc.
    split; [exact Hrun'|]. split; [exact Hr'|]. split; [exact Hget|].
    split; [eauto using same_values_trans | congruence].
Qed.

Lemma plus_all_of_ready_witness :
  exists r w',
    plus_all (call 2) 0%nat [1%nat; 0%nat]
      (mkWorld [mkImpl LAZY_READY 10 [] []; mkImpl LAZY_READY 5 [bind_print "x"] []] [] []
         ctx_invalid 0) = Ok r w'
    /\ ready_with w' r (10 + foldr Z.add 0 [5; 10])
    /\ get r w' = Ok (10 + foldr Z.add 0 [5; 10]) w'
    /\ same_values
         (mkWorld [mkImpl LAZY_READY 10 [] []; mkImpl LAZY_READY 5 [bind_print "x"] []] [] []
            ctx_invalid 0) w'
    /\ cout w' = [].
Proof.
  apply (plus_all_of_ready 0 [1%nat; 0%nat] [5; 10]
           (mkWorld [mkImpl LAZY_READY 10 [] []; mkImpl LAZY_READY 5 [bind_print "x"] []] [] []
              ctx_invalid 0) 0%nat 10).
  - by eexists.
  - repeat constructor; by eexists.
  - by repeat split.
Defined.

(** X5: [a + a] on a cell that is not ready yet.  When [a] is assigned,
    the first step stores the value in the result and watches [a] again; as
    [a] is [LAZY_READY] by then the second step runs at once, and the result
    is [LAZY_READY] with twice the value. *)
Theorem plus_same_operand
    (fuel : nat) (w : world) (a : loc) (ua : Z) (fa : list callback0) (va : Z) :
  heap w !! a = Some (mkImpl LAZY_NOT_READY ua [] fa) ->
  in_int (va + va) = true ->
  let r := length (heap w) in
  exists w0 w1,
    operator_plus (call (S (S fuel))) a a w = Ok r w0
    /\ heap w0 !! r = Some (mkImpl LAZY_NOT_READY 0 [] [])
    /\ assign (call (S (S fuel))) a va w0 = Ok tt w1
    /\ heap w1 !! r = Some (mkImpl LAZY_READY (va + va) [] [])
    /\ heap w1 !! a
       = Some (mkImpl LAZY_READY va
                 [bind_operator_plus_step1 r a; bind_operator_plus_step2 r] fa).
Proof.
  intros Ha R r. subst r.
  pose proof (lookup_lt_Some _ _ _ Ha) as La.
  eexists _, _. split; [construct; reflexivity|].
  split; [side|].
  split; [assign_one; step1; step2; reflexivity|].
  split; side.
Qed.

Lemma plus_same_operand_witness :
  exists w0 w1,
    operator_plus (call 2) 0%nat 0%nat
      (mkWorld [mkImpl LAZY_NOT_READY 0 [] []] [] [] ctx_invalid 0) = Ok 1%nat w0
    /\ heap w0 !! 1%nat = Some (mkImpl LAZY_NOT_READY 0 [] [])
    /\ assign (call 2) 0%nat 21 w0 = Ok tt w1
    /\ heap w1 !! 1%nat = Some (mkImpl LAZY_READY (21 + 21) [] [])
    /\ heap w1 !! 0%nat
       = Some (mkImpl LAZY_READY 21
                 [bind_operator_plus_step1 1%nat 0%nat; bind_operator_plus_step2 1%nat] []).
Proof.
  apply (plus_same_operand 0
           (mkWorld [mkImpl LAZY_NOT_READY 0 [] []] [] [] ctx_invalid 0)
           0%nat 0 [] 21 eq_refl eq_refl).
Defined.

Lemma operator_plus_step2_overflow call w r ir b :
  heap w !! r = Some ir -> in_int (value_ ir + b) = false ->
  operator_plus_step2 call r b w = Fault UndefinedBehaviour.
Proof.
  intros H R. unfold operator_plus_step2.
  rewrite bind_run, (impl_run _ _ _ H).
  rewrite bind_run. unfold int_add. rewrite R. reflexivity.
Qed.

(** X7: the sum is computed by [value_ += b] on [int].  When the two
    values do not add up to an [int], the assignment that makes the second
    operand ready evaluates that sum: a signed overflow, which is undefined
    behaviour. *)
Theorem plus_overflows
    (fuel : nat) (w : world) (a b : loc) (ua ub : Z) (fa fb : list callback0) (va vb : Z) :
  a <> b ->
  heap w !! a = Some (mkImpl LAZY_NOT_READY ua [] fa) ->
  heap w !! b = Some (mkImpl LAZY_NOT_READY ub [] fb) ->
  in_int (va + vb) = false ->
  exists w0 w1,
    operator_plus (call (S (S fuel))) a b w = Ok (length (heap w)) w0
    /\ assign (call (S (S fuel))) a va w0 = Ok tt w1
    /\ assign (call (S (S fuel))) b vb w1 = Fault UndefinedBehaviour.
Proof.
  intros Hne Ha Hb R.
  pose proof (lookup_lt_Some _ _ _ Ha) as La.
  pose proof (lookup_lt_Some _ _ _ Hb) as Lb.
  eexists _, _. split; [construct; reflexivity|].
  split; [assign_one; step1; reflexivity|].
  assign_one. rewrite call_step2.
  erewrite operator_plus_step2_overflow; [reflexivity|side|exact R].
Qed.

Lemma plus_overflows_witness :
  exists w0 w1,
    operator_plus (call 2) 0%nat 1%nat
      (mkWorld [mkImpl LAZY_NOT_READY 0 [] []; mkImpl LAZY_NOT_READY 0 [] []] [] []
         ctx_invalid 0) = Ok 2%nat w0
    /\ assign (call 2) 0%nat 2147483647 w0 = Ok tt w1
    /\ assign (call 2) 1%nat 1 w1 = Fault UndefinedBehaviour.
Proof.
  apply (plus_overflows 0
           (mkWorld [mkImpl LAZY_NOT_READY 0 [] []; mkImpl LAZY_NOT_READY 0 [] []] [] []
              ctx_invalid 0)
           0%nat 1%nat 0 0 [] [] 2147483647 1 ltac:(discriminate) eq_refl eq_refl eq_refl).
Defined.

(** X8: the second step adds to whatever the result holds and emits it,
    each time it is called.  After [a + b] is ready, [emit_ready] on [b] adds
    the value of [b] to the result once more and calls the result's
    callbacks again, with the new value. *)
Theorem emit_ready_again_adds_again
    (fuel : nat) (w : world) (a b : loc) (ua ub : Z) (fa fb : list callback0)
    (va vb : Z) (name : string) :
  a <> b ->
  heap w !! a = Some (mkImpl LAZY_NOT_READY ua [] fa) ->
  heap w !! b = Some (mkImpl LAZY_NOT_READY ub [] fb) ->
  in_int (va + vb) = true -> in_int (va + vb + vb) = true ->
  let r := length (heap w) in
  exists w3 w4,
    (operator_plus (call (S (S fuel))) a b ;;
     on_ready (call (S (S fuel))) r (bind_print name) ;;
     assign (call (S (S fuel))) a va ;;
     assign (call (S (S fuel))) b vb) w = Ok tt w3
    /\ cout w3 = cout w ++ [(name, va + vb)]
    /\ heap w3 !! r = Some (mkImpl LAZY_READY (va + vb) [bind_print name] [])
    /\ emit_ready (call (S (S fuel))) b w3 = Ok tt w4
    /\ cout w4 = cout w ++ [(name, va + vb); (name, va + vb + vb)]
    /\ heap w4 !! r = Some (mkImpl LAZY_READY (va + vb + vb) [bind_print name] []).
Proof.
  intros Hne Ha Hb R1 R2 r. subst r.
  pose proof (lookup_lt_Some _ _ _ Ha) as La.
  pose proof (lookup_lt_Some _ _ _ Hb) as Lb.
  eexists _, _. split.
  { rewrite bind_run. construct. rewrite ret_run. cbv beta iota.
    rewrite bind_run. erewrite on_ready_run; [|side]. fields.
    rewrite bind_run. assign_one. step1. rewrite ret_run. cbv beta iota.
    assign_one. step2. rewrite bind_run.
    change (call (S fuel) (bind_print name) (va + vb)) with (print name (va + vb)).
    rewrite print_run. reflexivity. }
  split; [reflexivity|]. split; [side|]. split.
  { erewrite emit_ready_run; [|side]. fields. rewrite bind_run. step2. rewrite bind_run.
    change (call (S fuel) (bind_print name) (va + vb + vb))
      with (print name (va + vb + vb)).
    rewrite print_run. reflexivity. }
  split; [|side].
  simpl. by rewrite <- app_assoc.
Qed.

Lemma emit_ready_again_adds_again_witness :
  exists w3 w4,
    (operator_plus (call 2) 0%nat 1%nat ;;
     on_ready (call 2) 2%nat (bind_print "sum") ;;
     assign (call 2) 0%nat 10 ;;
     assign (call 2) 1%nat 5)
      (mkWorld [mkImpl LAZY_NOT_READY 0 [] []; mkImpl LAZY_NOT_READY 0 [] []] [] []
         ctx_invalid 0) = Ok tt w3
    /\ cout w3 = [] ++ [("sum"%string, 10 + 5)]
    /\ heap w3 !! 2%nat = Some (mkImpl LAZY_READY (10 + 5) [bind_print "sum"] [])
    /\ emit_ready (call 2) 1%nat w3 = Ok tt w4
    /\ cout w4 = [] ++ [("sum"%string, 10 + 5); ("sum"%string, 10 + 5 + 5)]
    /\ heap w4 !! 2%nat = Some (mkImpl LAZY_READY (10 + 5 + 5) [bind_print "sum"] []).
Proof.
  apply (emit_ready_again_adds_again 0
           (mkWorld [mkImpl LAZY_NOT_READY 0 [] []; mkImpl LAZY_NOT_READY 0 [] []] [] []
              ctx_invalid 0)
           0%nat 1%nat 0 0 [] [] 10 5 "sum"
           ltac:(discriminate) eq_refl eq_refl eq_refl eq_refl).
Defined.

(** ** A barrier over any number of futures *)

Lemma in_int_true z : INT_MIN <= z <= INT_MAX -> in_int z = true.
Proof. intros [H1 H2]. unfold in_int. apply andb_true_intro. split; lia. Qed.

Lemma watch_all_run fuel wl js fs : forall w c,
  NoDup fs ->
  (forall f, f ∈ fs -> exists u fl, heap w !! f = Some (mkImpl LAZY_NOT_READY u [] fl)) ->
  waits w !! wl = Some (mkWait c js) ->
  0 <= c -> c + Z.of_nat (length fs) <= INT_MAX ->
  exists w',
    watch_all (call (S fuel)) wl fs w = Ok tt w'
    /\ cout w' = cout w
    /\ waits w' !! wl = Some (mkWait (c + Z.of_nat (length fs)) js)
    /\ (forall f, f ∈ fs ->
          exists u fl, heap w' !! f = Some (mkImpl LAZY_NOT_READY u [bind_one_ready wl] fl))
    /\ (forall g, g ∉ fs -> heap w' !! g = heap w !! g).
Proof.
  induction fs as [|f rest IH]; intros w c Hnd Hpend Hw Hc Hmax.
  - exists w. simpl. rewrite Z.add_0_r. split_and!; try done.
    intros f Hf. by apply elem_of_nil in Hf.
  - apply NoDup_cons in Hnd as [Hnotin Hnd].
    destruct (Hpend f) as (u & fl & Hf); [left|].
    simpl length in Hmax. unfold INT_MAX in Hmax.
    set (w1 := put f (mkImpl LAZY_NOT_READY u [bind_one_ready wl] fl)
                 (put_wait wl (mkWait (c + 1) js) w)).
    assert (Hstep : Wait_watch (call (S fuel)) wl f w = Ok tt w1).
    { erewrite Wait_watch_run;
        [|exact Hw|apply in_int_true; unfold INT_MIN, INT_MAX; simpl; lia].
      erewrite on_ready_run; [|side]. fields. reflexivity. }
    destruct (IH w1 (c + 1)) as (w' & Hrun & Hout & Hw' & Hcbs & Hframe); try done.
    { intros g Hg. destruct (Hpend g) as (u' & fl' & H'); [by right|].
      exists u', fl'. subst w1. assert (f <> g) by (intros ->; done). side. }
    { subst w1. side. }
    { lia. }
    { unfold INT_MAX. lia. }
    exists w'. cbn [watch_all]. rewrite bind_run, Hstep.
    split; [exact Hrun|]. split; [by rewrite Hout|]. split; [|split].
    + rewrite Hw'. do 2 f_equal. simpl length. lia.
    + intros g Hg. apply elem_of_cons in Hg as [->|Hg]; [|by apply Hcbs].
      exists u, fl. rewrite (Hframe f Hnotin). subst w1. side.
    + intros g Hg. apply not_elem_of_cons in Hg as [Hgf Hg].
      rewrite (Hframe g Hg). subst w1. simpl. by rewrite list_lookup_insert_ne.
Qed.

Lemma assign_all_counts fuel wl js gvs : forall w c,
  NoDup gvs.*1 ->
  (forall g, g ∈ gvs.*1 ->
     exists u fl, heap w !! g = Some (mkImpl LAZY_NOT_READY u [bind_one_ready wl] fl)) ->
  waits w !! wl = Some (mkWait c js) ->
  Z.of_nat (length gvs) <= c -> c <= INT_MAX ->
  exists w',
    assign_all (call (S fuel)) gvs w = Ok tt w'
    /\ waits w' !! wl = Some (mkWait (c - Z.of_nat (length gvs)) js)
    /\ cout w' = cout w ++ (if decide (gvs <> [] /\ c = Z.of_nat (length gvs))
                            then map line0 js else []).
Proof.
  induction gvs as [|[g v] rest IH]; intros w c Hnd Hpend Hw Hlen Hmax.
  - exists w. split; [reflexivity|]. split.
    + cbn [length]. by rewrite Z.sub_0_r.
    + case_decide as Hd; [by destruct Hd|]. by rewrite app_nil_r.
  - simpl in Hnd. apply NoDup_cons in Hnd as [Hnotin Hnd].
    destruct (Hpend g) as (u & fl & Hg); [left|].
    simpl length in *. unfold INT_MAX in Hmax.
    assert (R : in_int (c + -1) = true)
      by (apply in_int_true; unfold INT_MIN, INT_MAX; lia).
    cbn [assign_all]. rewrite bind_run.
    erewrite assign_run; [|exact Hg|reflexivity].
    cbn [ready_callbacks_ fail_callbacks_ signal_call].
    rewrite bind_run, call_one_ready.
    erewrite one_ready_run; [|side|exact R]. cbn [counter_ jobs_].
    destruct (decide (c + -1 = 0)) as [E|E].
    + destruct rest as [|gv rest]; [|simpl length in Hlen; lia].
      rewrite ret_run. cbv beta iota. eexists. split; [reflexivity|]. split.
      * assert (c - Z.of_nat (S (length (@nil (loc * Z)))) = c + -1) as ->
          by (simpl length; lia).
        side.
      * case_decide as Hd; [reflexivity|].
        exfalso. apply Hd. split; [done|simpl; lia].
    + rewrite ret_run. cbv beta iota.
      match goal with
      | |- exists w', assign_all _ _ ?W = _ /\ _ =>
          destruct (IH W (c + -1) Hnd) as (w' & Hrun & Hw' & Hout);
            [| side | | | exists w'; split; [exact Hrun|]; split]
      end.
      * intros h Hh. destruct (Hpend h) as (u' & fl' & H'); [by right|].
        exists u', fl'. assert (g <> h) by (intros ->; done). side.
      * lia.
      * unfold INT_MAX. lia.
      * rewrite Hw'. do 2 f_equal. lia.
      * rewrite Hout. cbn [cout printed with_cout put put_wait with_heap with_waits].
        f_equal. repeat case_decide; try reflexivity; exfalso.
        -- match goal with H : ~ (_ /\ _) |- _ => apply H end.
           split; [done|]. destruct_and!. lia.
        -- match goal with H : ~ (_ /\ _) |- _ => apply H end.
           destruct_and!. split; [|lia].
           intros ->. simpl length in *. lia.
Qed.

(** X9: the barrier over [n] futures.  On a barrier at count zero,
    watching [n >= 1] different futures that are not ready takes the count
    to [n] and runs nothing.  Whatever the order in which the futures are
    then assigned, nothing is written while fewer than [n] of them are
    assigned; the assignment of the last one takes the count to zero and
    runs every job of the barrier's list, in the order of the list. *)
Theorem job_runs_at_last_assignment
    (fuel : nat) (w : world) (wl : loc) (js : list callback0) (fs : list loc)
    (gvs : list (loc * Z)) :
  waits w !! wl = Some (mkWait 0 js) ->
  fs <> [] -> NoDup fs -> Z.of_nat (length fs) <= INT_MAX ->
  (forall f, f ∈ fs -> exists u fl, heap w !! f = Some (mkImpl LAZY_NOT_READY u [] fl)) ->
  gvs.*1 ≡ₚ fs ->
  exists w0,
    watch_all (call (S fuel)) wl fs w = Ok tt w0
    /\ cout w0 = cout w
    /\ waits w0 !! wl = Some (mkWait (Z.of_nat (length fs)) js)
    /\ (forall k, (k < length gvs)%nat ->
          exists w1, assign_all (call (S fuel)) (take k gvs) w0 = Ok tt w1
                     /\ cout w1 = cout w)
    /\ (exists w2,
          assign_all (call (S fuel)) gvs w0 = Ok tt w2
          /\ cout w2 = cout w ++ map line0 js
          /\ waits w2 !! wl = Some (mkWait 0 js)).
Proof.
  intros Hw Hne Hnd Hmax Hpend Hperm.
  destruct (watch_all_run fuel wl js fs w 0 Hnd Hpend Hw)
    as (w0 & Hrun & Hout & Hw0 & Hcbs & _); [lia | lia |].
  rewrite Z.add_0_l in Hw0.
  assert (Hlen : length gvs = length fs)
    by (rewrite <- (length_fmap fst gvs); by apply Permutation_length).
  assert (Hpos : Z.of_nat (length fs) <> 0) by (destruct fs; [done|simpl; lia]).
  assert (Hcbs0 : forall g, g ∈ gvs.*1 ->
            exists u fl, heap w0 !! g
                         = Some (mkImpl LAZY_NOT_READY u [bind_one_ready wl] fl)).
  { intros g Hg. rewrite Hperm in Hg. exact (Hcbs g Hg). }
  assert (Hnd' : NoDup gvs.*1) by (by rewrite Hperm).
  exists w0. split; [exact Hrun|]. split; [exact Hout|]. split; [exact Hw0|]. split.
  - intros k Hk.
    destruct (assign_all_counts fuel wl js (take k gvs) w0
                (Z.of_nat (length fs))) as (w1 & Hrun1 & _ & Hout1); try done.
    + rewrite fmap_take. eauto using sublist_NoDup, sublist_take.
    + intros g Hg. apply Hcbs0. rewrite fmap_take in Hg.
      by apply (subseteq_take k) in Hg.
    + rewrite length_take. lia.
    + exists w1. split; [exact Hrun1|]. rewrite Hout1.
      case_decide as Hd.
      * destruct Hd as [_ Hd]. rewrite length_take in Hd. lia.
      * rewrite app_nil_r. exact Hout.
  - destruct (assign_all_counts fuel wl js gvs w0
                (Z.of_nat (length fs))) as (w2 & Hrun2 & Hw2 & Hout2); try done.
    + lia.
    + exists w2. split; [exact Hrun2|]. split.
      * rewrite Hout2. case_decide as Hd.
        -- by rewrite <- Hout.
        -- exfalso. apply Hd. split; [|lia]. intros ->. simpl in Hlen.
           destruct fs; done.
      * rewrite Hw2. do 2 f_equal. lia.
Qed.

Lemma job_runs_at_last_assignment_witness :
  exists w0,
    watch_all (call 1) 0%nat [0%nat; 1%nat; 2%nat]
      (mkWorld [mkImpl LAZY_NOT_READY 0 [] []; mkImpl LAZY_NOT_READY 0 [] [];
                mkImpl LAZY_NOT_READY 0 [] []] [mkWait 0 [bind_print_of "job" 0]] []
         ctx_invalid 0) = Ok tt w0
    /\ cout w0 = []
    /\ waits w0 !! 0%nat = Some (mkWait (Z.of_nat 3) [bind_print_of "job" 0])
    /\ (forall k, (k < 3)%nat ->
          exists w1, assign_all (call 1) (take k [(2%nat, 7); (0%nat, 8); (1%nat, 9)]) w0
                       = Ok tt w1
                     /\ cout w1 = [])
    /\ (exists w2,
          assign_all (call 1) [(2%nat, 7); (0%nat, 8); (1%nat, 9)] w0 = Ok tt w2
          /\ cout w2 = [] ++ map line0 [bind_print_of "job" 0]
          /\ waits w2 !! 0%nat = Some (mkWait 0 [bind_print_of "job" 0])).
Proof.
  apply (job_runs_at_last_assignment 0
           (mkWorld [mkImpl LAZY_NOT_READY 0 [] []; mkImpl LAZY_NOT_READY 0 [] [];
                     mkImpl LAZY_NOT_READY 0 [] []] [mkWait 0 [bind_print_of "job" 0]] []
              ctx_invalid 0)
           0%nat [bind_print_of "job" 0] [0%nat; 1%nat; 2%nat]
           [(2%nat, 7); (0%nat, 8); (1%nat, 9)] eq_refl).
  - discriminate.
  - by apply (bool_decide_unpack _).
  - unfold INT_MAX. simpl. lia.
  - intros f Hf. repeat (apply elem_of_cons in Hf as [->|Hf]; [by exists 0, []|]).
    by apply elem_of_nil in Hf.
  - simpl. apply NoDup_Permutation; try by apply (bool_decide_unpack _).
    intros x. rewrite !elem_of_cons, !elem_of_nil. tauto.
Defined.

(** X10: a future watched twice by the same barrier counts twice, and its
    one assignment counts down twice: both of its callbacks are called, and
    the jobs of the barrier's list run when the second of them takes the
    count to zero. *)
Theorem watched_twice_counts_twice
    (fuel : nat) (w : world) (wl : loc) (js : list callback0)
    (f : loc) (u : Z) (fl : list callback0) (v : Z) :
  waits w !! wl = Some (mkWait 0 js) ->
  heap w !! f = Some (mkImpl LAZY_NOT_READY u [] fl) ->
  exists w0 w1,
    (Wait_watch (call (S fuel)) wl f ;; Wait_watch (call (S fuel)) wl f) w = Ok tt w0
    /\ waits w0 !! wl = Some (mkWait 2 js)
    /\ cout w0 = cout w
    /\ assign (call (S fuel)) f v w0 = Ok tt w1
    /\ waits w1 !! wl = Some (mkWait 0 js)
    /\ cout w1 = cout w ++ map line0 js.
Proof.
  intros Hw Hf. eexists _, _. split.
  { rewrite bind_run. erewrite Wait_watch_run; [|side..].
    erewrite on_ready_run; [|side..]. fields.
    erewrite Wait_watch_run; [|side..].
    erewrite on_ready_run; [|side..]. fields. reflexivity. }
  split; [side|]. split; [reflexivity|]. split.
  { erewrite assign_run; [|side..]. fields.
    rewrite bind_run, call_one_ready. erewrite one_ready_run; [|side..]. fields.
    rewrite bind_run, call_one_ready. erewrite one_ready_run; [|side..]. fields.
    reflexivity. }
  split; [side|reflexivity].
Qed.

Lemma watched_twice_counts_twice_witness :
  exists w0 w1,
    (Wait_watch (call 1) 0%nat 0%nat ;; Wait_watch (call 1) 0%nat 0%nat)
      (mkWorld [mkImpl LAZY_NOT_READY 0 [] []] [mkWait 0 [bind_print_of "job" 0]] []
         ctx_invalid 0) = Ok tt w0
    /\ waits w0 !! 0%nat = Some (mkWait 2 [bind_print_of "job" 0])
    /\ cout w0 = []
    /\ assign (call 1) 0%nat 3 w0 = Ok tt w1
    /\ waits w1 !! 0%nat = Some (mkWait 0 [bind_print_of "job" 0])
    /\ cout w1 = [] ++ map line0 [bind_print_of "job" 0].
Proof.
  apply (watched_twice_counts_twice 0
           (mkWorld [mkImpl LAZY_NOT_READY 0 [] []] [mkWait 0 [bind_print_of "job" 0]] []
              ctx_invalid 0)
           0%nat [bind_print_of "job" 0] 0%nat 0 [] 3 eq_refl eq_refl).
Defined.

(** X11: the count has no floor.  [emit_ready] on a watched future that
    is already ready calls [one_ready] again: the count goes from 0 to -1
    and no job of the barrier's list runs. *)
Theorem emit_ready_again_takes_count_below_zero
    (fuel : nat) (w : world) (wl : loc) (js : list callback0)
    (f : loc) (v : Z) (fl : list callback0) :
  waits w !! wl = Some (mkWait 0 js) ->
  heap w !! f = Some (mkImpl LAZY_READY v [bind_one_ready wl] fl) ->
  exists w1,
    emit_ready (call (S fuel)) f w = Ok tt w1
    /\ waits w1 !! wl = Some (mkWait (-1) js)
    /\ cout w1 = cout w.
Proof.
  intros Hw Hf. eexists. split.
  { erewrite emit_ready_run; [|side]. fields.
    rewrite bind_run, call_one_ready. erewrite one_ready_run; [|side..]. fields.
    reflexivity. }
  split; [side|reflexivity].
Qed.

Lemma emit_ready_again_takes_count_below_zero_witness :
  exists w1,
    emit_ready (call 1) 0%nat
      (mkWorld [mkImpl LAZY_READY 3 [bind_one_ready 0%nat] []]
         [mkWait 0 [bind_print_of "old" 1]] [] ctx_invalid 0) = Ok tt w1
    /\ waits w1 !! 0%nat = Some (mkWait (-1) [bind_print_of "old" 1])
    /\ cout w1 = [].
Proof.
  apply (emit_ready_again_takes_count_below_zero 0
           (mkWorld [mkImpl LAZY_READY 3 [bind_one_ready 0%nat] []]
              [mkWait 0 [bind_print_of "old" 1]] [] ctx_invalid 0)
           0%nat [bind_print_of "old" 1] 0%nat 3 [] eq_refl eq_refl).
Defined.

(** ** Nothing is ever taken away *)

Lemma grows_refl w : grows w w.
Proof.
  split; [done|]. split.
  - intros l i H. by exists i.
  - intros l x H. by exists x.
Qed.

Lemma grows_trans w1 w2 w3 : grows w1 w2 -> grows w2 w3 -> grows w1 w3.
Proof.
  intros (Ho & Hh & Hw) (Ho' & Hh' & Hw'). split; [by etrans|]. split.
  - intros l i H. destruct (Hh l i H) as (i2 & H2 & Hr & Hf).
    destruct (Hh' l i2 H2) as (i3 & H3 & Hr' & Hf').
    exists i3. split; [done|]. split; by etrans.
  - intros l x H. destruct (Hw l x H) as (x2 & H2 & Hj).
    destruct (Hw' l x2 H2) as (x3 & H3 & Hj').
    exists x3. split; [done|]. by etrans.
Qed.

Lemma grows_put w l i j :
  heap w !! l = Some i ->
  ready_callbacks_ i `prefix_of` ready_callbacks_ j ->
  fail_callbacks_ i `prefix_of` fail_callbacks_ j ->
  grows w (put l j w).
Proof.
  intros H Hr Hf. split; [done|]. split.
  - intros l' i' H'. destruct (decide (l = l')) as [<-|Hne].
    + exists j. split; [eauto using heap_put_eq|].
      assert (i' = i) as -> by congruence. done.
    + exists i'. by rewrite heap_put_ne.
  - intros l' x H'. by exists x.
Qed.

Lemma grows_put_wait w l x y :
  waits w !! l = Some x -> jobs_ x `prefix_of` jobs_ y -> grows w (put_wait l y w).
Proof.
  intros H Hj. split; [done|]. split.
  - intros l' i H'. by exists i.
  - intros l' x' H'. destruct (decide (l = l')) as [<-|Hne].
    + exists y. split; [eauto using waits_put_wait_eq|].
      assert (x' = x) as -> by congruence. done.
    + exists x'. split; [|done]. simpl. by rewrite list_lookup_insert_ne.
Qed.

Lemma grows_alloc w i : grows w (alloc i w).
Proof.
  split; [done|]. split.
  - intros l i' H. exists i'. split; [by apply heap_alloc_old|done].
  - intros l x H. by exists x.
Qed.

Lemma grows_printed w xs : grows w (printed xs w).
Proof.
  split; [by apply prefix_app_r|]. split.
  - intros l i H. by exists i.
  - intros l x H. by exists x.
Qed.

Lemma grows_same w w' :
  cout w' = cout w -> heap w' = heap w -> waits w' = waits w -> grows w w'.
Proof.
  intros Ho Hh Hw. split; [by rewrite Ho|]. split.
  - intros l i H. exists i. by rewrite Hh.
  - intros l x H. exists x. by rewrite Hw.
Qed.

Lemma only_grows_ret {A} (a : A) : only_grows (ret a).
Proof. intros w. apply grows_refl. Qed.

Lemma only_grows_throw {A} f : only_grows (@throw A f).
Proof. intros w. exact I. Qed.

Lemma only_grows_bind {A B} (m : M A) (k : A -> M B) :
  only_grows m -> (forall a, only_grows (k a)) -> only_grows (bind m k).
Proof.
  intros Hm Hk w. rewrite bind_run. specialize (Hm w).
  destruct (m w) as [a w'| |]; auto.
  specialize (Hk a w'). destruct (k a w'); eauto using grows_trans.
Qed.

Lemma only_grows_assert b : only_grows (assert b).
Proof. destruct b; [apply only_grows_ret | apply only_grows_throw]. Qed.

Lemma only_grows_int_add x y : only_grows (int_add x y).
Proof.
  unfold int_add. destruct (in_int (x + y)); [apply only_grows_ret | apply only_grows_throw].
Qed.

Lemma only_grows_impl l : only_grows (impl l).
Proof. intros w. unfold impl. destruct (heap w !! l); auto using grows_refl. Qed.

Lemma only_grows_wait l : only_grows (wait l).
Proof. intros w. unfold wait. destruct (waits w !! l); auto using grows_refl. Qed.

Lemma only_grows_update_impl l f :
  (forall i, ready_callbacks_ i `prefix_of` ready_callbacks_ (f i)
             /\ fail_callbacks_ i `prefix_of` fail_callbacks_ (f i)) ->
  only_grows (update_impl l f).
Proof.
  intros Hf w. unfold update_impl. rewrite bind_run. unfold impl.
  destruct (heap w !! l) as [i|] eqn:H; [|done].
  apply (grows_put w l i); [done|apply Hf..].
Qed.

Lemma only_grows_update_wait l f :
  (forall x, jobs_ x `prefix_of` jobs_ (f x)) -> only_grows (update_wait l f).
Proof.
  intros Hf w. unfold update_wait. rewrite bind_run. unfold wait.
  destruct (waits w !! l) as [x|] eqn:H; [|done].
  apply (grows_put_wait w l x); [done|apply Hf].
Qed.

Lemma only_grows_print name a : only_grows (print name a).
Proof. intros w. apply grows_printed. Qed.

Lemma only_grows_call0 cb : only_grows (call0 cb).
Proof. destruct cb. apply only_grows_print. Qed.

Lemma only_grows_call_all0 slots : only_grows (call_all0 slots).
Proof.
  induction slots; simpl;
    auto using only_grows_ret, only_grows_bind, only_grows_call0.
Qed.

Lemma only_grows_set_context c : only_grows (modify (with_coroutine_context c)).
Proof. intros w. by apply grows_same. Qed.

Lemma only_grows_set_finished z : only_grows (modify (with_coroutine_finished z)).
Proof. intros w. by apply grows_same. Qed.

Create HintDb grows.
#[local] Hint Resolve only_grows_ret only_grows_throw only_grows_assert only_grows_int_add
  only_grows_impl only_grows_wait only_grows_print only_grows_call0 only_grows_call_all0
  only_grows_set_context only_grows_set_finished prefix_app_r : grows.

Ltac grows_step :=
  first
    [ solve [auto with grows]
    | simple apply only_grows_update_impl; intros ?; simpl; split;
        solve [reflexivity | by apply prefix_app_r]
    | simple apply only_grows_update_wait; intros ?; simpl;
        solve [reflexivity | by apply prefix_app_r]
    | match goal with
      | |- only_grows (if ?b then _ else _) => destruct b
      end
    | simple apply only_grows_bind; [|intros ?] ].

Section OnlyGrows.

Variable call : callback1 -> Z -> M unit.
Hypothesis call_only_grows : forall cb v, only_grows (call cb v).

Lemma only_grows_signal_call slots v : only_grows (signal_call call slots v).
Proof. induction slots; simpl; repeat grows_step. Qed.
#[local] Hint Resolve call_only_grows only_grows_signal_call : grows.

Lemma only_grows_on_ready l cb : only_grows (on_ready call l cb).
Proof. unfold on_ready. repeat grows_step. Qed.
#[local] Hint Resolve only_grows_on_ready : grows.

Lemma only_grows_on_fail l cb : only_grows (on_fail l cb).
Proof. unfold on_fail. repeat grows_step. Qed.

Lemma only_grows_emit_ready l : only_grows (emit_ready call l).
Proof. unfold emit_ready. repeat grows_step. Qed.
#[local] Hint Resolve only_grows_emit_ready : grows.

Lemma only_grows_emit_fail l : only_grows (emit_fail l).
Proof. unfold emit_fail. repeat grows_step. Qed.

Lemma only_grows_operator_plus_step2 l b : only_grows (operator_plus_step2 call l b).
Proof. unfold operator_plus_step2. repeat grows_step. Qed.

Lemma only_grows_operator_plus_step1 l a b : only_grows (operator_plus_step1 call l a b).
Proof. unfold operator_plus_step1. repeat grows_step. Qed.

Lemma only_grows_Lazy_new : only_grows Lazy_new.
Proof. intros w. apply grows_alloc. Qed.
#[local] Hint Resolve only_grows_Lazy_new : grows.

Lemma only_grows_Lazy_of v : only_grows (Lazy_of call v).
Proof. unfold Lazy_of. repeat grows_step. Qed.

Lemma only_grows_get l : only_grows (get l).
Proof. unfold get. repeat grows_step. Qed.
#[local] Hint Resolve only_grows_get : grows.

Lemma only_grows_assign l v : only_grows (assign call l v).
Proof. unfold assign. repeat grows_step. Qed.

Lemma only_grows_operator_plus l b : only_grows (operator_plus call l b).
Proof. unfold operator_plus. repeat grows_step. Qed.

Lemma only_grows_Wait_new : only_grows Wait_new.
Proof.
  intros w. split; [done|]. split.
  - intros l i H. by exists i.
  - intros l x H. exists x. split; [|done]. simpl. by apply lookup_app_l_Some.
Qed.

Lemma only_grows_Wait_watch wl l : only_grows (Wait_watch call wl l).
Proof. unfold Wait_watch. repeat grows_step. Qed.

Lemma only_grows_Wait_run wl job : only_grows (Wait_run wl job).
Proof. unfold Wait_run. repeat grows_step. Qed.

Lemma only_grows_one_ready wl : only_grows (one_ready wl).
Proof. unfold one_ready. repeat grows_step. Qed.

Lemma only_grows_run_coroutine f : only_grows (run_coroutine call f).
Proof.
  induction f as [|name a k IH|name var k _]; simpl.
  - intros w. apply grows_refl.
  - repeat grows_step.
  - unfold __do_async_wait. repeat grows_step.
Qed.
#[local] Hint Resolve only_grows_run_coroutine : grows.

Lemma only_grows_swapcontext_main_coroutine :
  only_grows (swapcontext_main_coroutine call).
Proof.
  intros w. unfold swapcontext_main_coroutine.
  destruct (coroutine_context w) as [|f|var k]; [exact I| |].
  - apply (only_grows_bind (modify (with_coroutine_context ctx_invalid))
             (fun _ => run_coroutine call f)); [|intros _]; repeat grows_step.
  - apply (only_grows_bind (modify (with_coroutine_context ctx_invalid))
             (fun _ => do v <- get var ; run_coroutine call (k v)));
      [|intros _]; repeat grows_step.
Qed.
#[local] Hint Resolve only_grows_swapcontext_main_coroutine : grows.

Lemma only_grows_START_COROUTINE_AND_RUN_ONCE f block :
  only_grows block -> only_grows (START_COROUTINE_AND_RUN_ONCE call f block).
Proof.
  intros Hb w. unfold START_COROUTINE_AND_RUN_ONCE.
  set (w0 := with_coroutine_context _ _).
  assert (Hm : only_grows
            (modify (with_coroutine_finished 1) ;; swapcontext_main_coroutine call ;; block)).
  { repeat grows_step. }
  specialize (Hm w0).
  assert (H0 : grows w w0) by (by apply grows_same).
  match type of Hm with
  | match ?r with _ => _ end => destruct r as [a w'|w'|]
  end; eauto using grows_trans.
  destruct (decide (coroutine_finished w' = 0)); eauto using grows_trans.
Qed.

Lemma only_grows_apply1 cb v : only_grows (apply1 call cb v).
Proof.
  destruct cb; simpl;
    auto using only_grows_operator_plus_step1, only_grows_operator_plus_step2,
      only_grows_one_ready, only_grows_swapcontext_main_coroutine,
      only_grows_print, only_grows_on_ready.
Qed.

End OnlyGrows.

Lemma only_grows_call fuel cb v : only_grows (call fuel cb v).
Proof.
  revert cb v. induction fuel as [|n IH]; intros cb v; simpl.
  - apply only_grows_throw.
  - by apply only_grows_apply1.
Qed.

(** X12: nothing is ever disconnected or dequeued.  Whatever a call
    through a stored closure, a member function of a cell or of a barrier,
    or the coroutine statement does, and however it ends, afterwards every
    cell still has the ready and fail callbacks it had, in the same order in
    front of any new ones, every barrier still has its jobs, and the output
    written before is still there. *)
Theorem callbacks_and_jobs_only_grow :
  (forall fuel cb v, only_grows (call fuel cb v))
  /\ (forall fuel l v, only_grows (assign (call fuel) l v))
  /\ (forall fuel l, only_grows (emit_ready (call fuel) l))
  /\ (forall l, only_grows (emit_fail l))
  /\ (forall fuel l cb, only_grows (on_ready (call fuel) l cb))
  /\ (forall l cb, only_grows (on_fail l cb))
  /\ (forall fuel a b, only_grows (operator_plus (call fuel) a b))
  /\ (forall fuel v, only_grows (Lazy_of (call fuel) v))
  /\ (forall fuel wl l, only_grows (Wait_watch (call fuel) wl l))
  /\ (forall wl job, only_grows (Wait_run wl job))
  /\ (forall fuel f block,
        only_grows block ->
        only_grows (START_COROUTINE_AND_RUN_ONCE (call fuel) f block)).
Proof.
  repeat apply conj; intros.
  - apply only_grows_call.
  - apply only_grows_assign, only_grows_call.
  - apply only_grows_emit_ready, only_grows_call.
  - apply only_grows_emit_fail.
  - apply only_grows_on_ready, only_grows_call.
  - apply only_grows_on_fail.
  - apply only_grows_operator_plus, only_grows_call.
  - apply only_grows_Lazy_of, only_grows_call.
  - apply only_grows_Wait_watch, only_grows_call.
  - apply only_grows_Wait_run.
  - apply only_grows_START_COROUTINE_AND_RUN_ONCE; [apply only_grows_call | assumption].
Qed.

Lemma callbacks_and_jobs_only_grow_witness :
  only_grows (START_COROUTINE_AND_RUN_ONCE (call 1) co_return (ret tt)).
Proof.
  apply (proj2 (proj2 (proj2 (proj2 (proj2 (proj2 (proj2 (proj2 (proj2 (proj2
           callbacks_and_jobs_only_grow))))))))) 1%nat co_return (ret tt)).
  intros w. simpl. apply grows_refl.
Defined.

(** ** More on the coroutine statement *)

Lemma run_coroutine_prints call ls w :
  run_coroutine call (co_prints ls) w = Jump (printed ls w).
Proof.
  revert w. induction ls as [|[name a] rest IH]; intros w; cbn [co_prints run_coroutine].
  - by rewrite printed_nil.
  - rewrite bind_run, print_run, IH, printed_printed. reflexivity.
Qed.

(** X13: a coroutine function that returns without waiting.  Control
    comes back through [return_context] with [coroutine_finished] already 1,
    so the [if] takes its empty branch: the lines of the coroutine are
    written and the block of the statement is not executed at all, whatever
    it is. *)
Theorem block_skipped_when_coroutine_never_waits
    (call : callback1 -> Z -> M unit) (ls : list (string * Z)) (block : M unit) (w : world) :
  START_COROUTINE_AND_RUN_ONCE call (co_prints ls) block w
  = Ok tt (mkWorld (heap w) (waits w) (cout w ++ ls) ctx_invalid 1).
Proof.
  unfold START_COROUTINE_AND_RUN_ONCE.
  rewrite bind_run, modify_run, bind_run.
  erewrite swapcontext_entry; [|reflexivity].
  rewrite run_coroutine_prints. reflexivity.
Qed.

(** X14: the coroutine returns in the middle of an assignment.  With the
    coroutine waiting for [a], a callback registered on [a] afterwards and
    the statements of the block behind the assignment of [a] are never
    executed: the assignment resumes the coroutine, which writes the value
    and returns, and control leaves through [return_context]. *)
Theorem rest_skipped_when_coroutine_returns
    (fuel : nat) (w : world) (a : loc) (ua : Z) (fa : list callback0) (v : Z)
    (name after : string) (rest : M unit) :
  heap w !! a = Some (mkImpl LAZY_NOT_READY ua [] fa) ->
  exists w',
    START_COROUTINE_AND_RUN_ONCE (call (S fuel)) (await_all [(name, a)])
      (on_ready (call (S fuel)) a (bind_print after) ;;
       assign (call (S fuel)) a v ;;
       rest) w = Ok tt w'
    /\ cout w' = cout w ++ [(name, v)]
    /\ heap w' !! a
       = Some (mkImpl LAZY_READY v [bind_async_continue; bind_print after] fa)
    /\ coroutine_finished w' = 1.
Proof.
  intros Ha. eexists. split.
  { unfold START_COROUTINE_AND_RUN_ONCE. cbn [await_all].
    rewrite bind_run, modify_run, bind_run.
    erewrite swapcontext_entry; [|reflexivity]. suspend.
    rewrite bind_run. erewrite on_ready_run; [|side]. fields.
    rewrite bind_run. assign_one. resume.
    cbn [run_coroutine]. rewrite bind_run, print_run.
    cbn [coroutine_finished with_coroutine_finished with_coroutine_context printed put
         with_cout with_heap].
    rewrite decide_False by done. reflexivity. }
  split; [reflexivity|]. split; [side|reflexivity].
Qed.

Lemma rest_skipped_when_coroutine_returns_witness :
  exists w',
    START_COROUTINE_AND_RUN_ONCE (call 1) (await_all [("a"%string, 0%nat)])
      (on_ready (call 1) 0%nat (bind_print "after") ;;
       assign (call 1) 0%nat 10 ;;
       throw AssertionFailed)
      (mkWorld [mkImpl LAZY_NOT_READY 0 [] []] [] [] ctx_invalid 0) = Ok tt w'
    /\ cout w' = [] ++ [("a"%string, 10)]
    /\ heap w' !! 0%nat
       = Some (mkImpl LAZY_READY 10 [bind_async_continue; bind_print "after"] [])
    /\ coroutine_finished w' = 1.
Proof.
  apply (rest_skipped_when_coroutine_returns 0
           (mkWorld [mkImpl LAZY_NOT_READY 0 [] []] [] [] ctx_invalid 0)
           0%nat 0 [] 10 "a" "after" (throw AssertionFailed) eq_refl).
Defined.

(** The coroutine is suspended on [l], the first of a run of waits; the
    driver assigns the values in the order of the waits.  Each assignment
    resumes the coroutine, which writes the value and waits for the next
    one; the last one lets it return. *)
Lemma resume_chain fuel ts : forall w name l v u fl,
  coroutine_context w
    = ctx_wait l (fun x => co_print name x (await_all (awaited ts))) ->
  heap w !! l = Some (mkImpl LAZY_NOT_READY u [bind_async_continue] fl) ->
  NoDup (l :: (assigned ts).*1) ->
  (forall g, g ∈ (assigned ts).*1 ->
     exists u' fl', heap w !! g = Some (mkImpl LAZY_NOT_READY u' [] fl')) ->
  exists w',
    assign_all (call (S fuel)) ((l, v) :: assigned ts) w = Jump w'
    /\ cout w' = cout w ++ (name, v) :: written ts
    /\ coroutine_finished w' = coroutine_finished w.
Proof.
  induction ts as [|[[n' l'] v'] rest IH]; intros w name l v u fl Hc Hl Hnd Hpend.
  - eexists. split.
    { cbn [assigned fmap list_fmap assign_all]. rewrite bind_run.
      assign_one. resume. cbn [awaited fmap list_fmap await_all run_coroutine].
      rewrite bind_run, print_run. reflexivity. }
    split; reflexivity.
  - cbn [assigned awaited written fmap list_fmap fst snd] in *.
    apply NoDup_cons in Hnd as [Hnotin Hnd].
    apply not_elem_of_cons in Hnotin as [Hne Hnotin].
    destruct (Hpend l') as (u' & fl' & Hl'); [left|].
    set (k' := fun x => co_print n' x (await_all ((fun t => (t.1.1, t.1.2)) <$> rest))).
    set (w1 := with_coroutine_context (ctx_wait l' k')
                 (put l' (mkImpl LAZY_NOT_READY u' [bind_async_continue] fl')
                    (printed [(name, v)]
                       (with_coroutine_context ctx_invalid
                          (put l (mkImpl LAZY_READY v [bind_async_continue] fl) w))))).
    assert (Hstep : assign (call (S fuel)) l v w = Ok tt w1).
    { assign_one. resume. cbn [await_all run_coroutine].
      rewrite bind_run, print_run.
      match goal with
      | |- context [__do_async_wait ?c ?n ?x ?k] =>
          change (__do_async_wait c n x k) with (run_coroutine c (co_async_wait n x k))
      end.
      suspend. reflexivity. }
    destruct (IH w1 n' l' v' u' fl') as (w' & Hrun & Hout & Hfin); try done.
    { subst w1. side. }
    { intros g Hg. destruct (Hpend g) as (u2 & fl2 & H2); [by right|].
      exists u2, fl2. subst w1.
      assert (l <> g) by (intros ->; done).
      assert (l' <> g).
      { intros ->. apply NoDup_cons in Hnd as [Hn _]. done. }
      side. }
    exists w'. split; [|split].
    + change ((assign (call (S fuel)) l v ;;
               assign_all (call (S fuel)) ((l', v') :: assigned rest)) w = Jump w').
      rewrite bind_run, Hstep. exact Hrun.
    + rewrite Hout. subst w1. simpl. by rewrite <- app_assoc.
    + rewrite Hfin. reflexivity.
Qed.

(** X16: any number of waits in a row.  The coroutine waits for the
    values of a list one after the other and writes each one; the values
    are different cells, not ready and without callbacks.  Started by the
    macro with a block that assigns them in the same order, it is resumed
    once per assignment, writes the values in that order and returns during
    the last assignment; the statement ends normally with
    [coroutine_finished = 1]. *)
Theorem coroutine_follows_assignments
    (fuel : nat) (ts : list (string * loc * Z)) (w : world) :
  NoDup (assigned ts).*1 ->
  (forall g, g ∈ (assigned ts).*1 ->
     exists u fl, heap w !! g = Some (mkImpl LAZY_NOT_READY u [] fl)) ->
  exists w',
    START_COROUTINE_AND_RUN_ONCE (call (S fuel)) (await_all (awaited ts))
      (assign_all (call (S fuel)) (assigned ts)) w = Ok tt w'
    /\ cout w' = cout w ++ written ts
    /\ coroutine_finished w' = 1.
Proof.
  intros Hnd Hpend. destruct ts as [|[[n l] v] rest].
  - eexists. split; [|split].
    + apply (block_skipped_when_coroutine_never_waits _ []).
    + reflexivity.
    + reflexivity.
  - cbn [assigned awaited written fmap list_fmap fst snd] in *.
    destruct (Hpend l) as (u & fl & Hl); [left|].
    set (k := fun x => co_print n x (await_all (awaited rest))).
    set (w1 := with_coroutine_context (ctx_wait l k)
                 (put l (mkImpl LAZY_NOT_READY u [bind_async_continue] fl)
                    (with_coroutine_context ctx_invalid
                       (with_coroutine_finished 1
                          (with_coroutine_context
                             (ctx_entry (co_async_wait n l k))
                             (with_coroutine_finished 0 w)))))).
    destruct (resume_chain fuel rest w1 n l v u fl) as (w' & Hrun & Hout & Hfin).
    { reflexivity. }
    { subst w1. side. }
    { exact Hnd. }
    { intros g Hg. destruct (Hpend g) as (u' & fl' & H'); [by right|].
      exists u', fl'. subst w1.
      assert (l <> g) by (intros ->; by apply NoDup_cons in Hnd as [? _]).
      side. }
    exists w'. split; [|split].
    + unfold START_COROUTINE_AND_RUN_ONCE.
      match goal with
      | |- match ?e with _ => _ end = _ => assert (Hinner : e = Jump w')
      end.
      { rewrite bind_run, modify_run, bind_run.
        erewrite swapcontext_entry; [|reflexivity].
        cbn [await_all]. suspend. exact Hrun. }
      rewrite Hinner, Hfin. subst w1.
      cbn [coroutine_finished with_coroutine_context put with_heap].
      rewrite decide_False by done. reflexivity.
    + rewrite Hout. reflexivity.
    + rewrite Hfin. reflexivity.
Qed.

Lemma coroutine_follows_assignments_witness :
  exists w',
    START_COROUTINE_AND_RUN_ONCE (call 1)
      (await_all (awaited [("a"%string, 0%nat, 10); ("b"%string, 1%nat, 5);
                           ("c"%string, 2%nat, 11)]))
      (assign_all (call 1)
         (assigned [("a"%string, 0%nat, 10); ("b"%string, 1%nat, 5);
                    ("c"%string, 2%nat, 11)]))
      (mkWorld [mkImpl LAZY_NOT_READY 0 [] []; mkImpl LAZY_NOT_READY 0 [] [];
                mkImpl LAZY_NOT_READY 0 [] []] [] [] ctx_invalid 0) = Ok tt w'
    /\ cout w' = [] ++ written [("a"%string, 0%nat, 10); ("b"%string, 1%nat, 5);
                               ("c"%string, 2%nat, 11)]
    /\ coroutine_finished w' = 1.
Proof.
  apply (coroutine_follows_assignments 0
           [("a"%string, 0%nat, 10); ("b"%string, 1%nat, 5); ("c"%string, 2%nat, 11)]
           (mkWorld [mkImpl LAZY_NOT_READY 0 [] []; mkImpl LAZY_NOT_READY 0 [] [];
                     mkImpl LAZY_NOT_READY 0 [] []] [] [] ctx_invalid 0)).
  - by apply (bool_decide_unpack _).
  - intros g Hg. simpl in Hg.
    repeat (apply elem_of_cons in Hg as [->|Hg]; [by exists 0, []|]).
    by apply elem_of_nil in Hg.
Defined.

(** ** Sums of sums *)

Ltac exec :=
  repeat first
    [ rewrite ret_run; cbv beta iota
    | rewrite bind_run
    | rewrite call_step1
    | rewrite call_step2
    | erewrite assign_run; [|side..]; fields
    | erewrite operator_plus_step1_run; [|side..]
    | erewrite operator_plus_step2_run; [|side..]
    | erewrite on_ready_run; [|side..]; fields
    | erewrite emit_ready_run; [|side..]; fields ].

Lemma length_heap_put w l i : length (heap (put l i w)) = length (heap w).
Proof. simpl. apply length_insert. Qed.

Lemma length_heap_alloc w i : length (heap (alloc i w)) = S (length (heap w)).
Proof. simpl. rewrite length_app. simpl. lia. Qed.

Lemma heap_alloc_at w i n : n = length (heap w) -> heap (alloc i w) !! n = Some i.
Proof. intros ->. apply heap_alloc_new. Qed.

#[local] Hint Resolve heap_alloc_at : store.
#[local] Hint Extern 1 (_ = length (heap _)) =>
  rewrite ?length_heap_put, ?length_heap_alloc; reflexivity : store.

(** X17: a sum of a sum, [(a + b) + c], over three different cells that
    are not ready.  In whichever of the six orders the three are assigned,
    the outer result is [LAZY_READY] with the sum of the three values after
    the third assignment. *)
Theorem nested_sum_any_order
    (fuel : nat) (w : world) (a b c : loc) (ua ub uc : Z) (fa fb fc : list callback0)
    (va vb vc : Z) (gvs : list (loc * Z)) :
  a <> b -> a <> c -> b <> c ->
  heap w !! a = Some (mkImpl LAZY_NOT_READY ua [] fa) ->
  heap w !! b = Some (mkImpl LAZY_NOT_READY ub [] fb) ->
  heap w !! c = Some (mkImpl LAZY_NOT_READY uc [] fc) ->
  in_int (va + vb) = true -> in_int (va + vb + vc) = true ->
  gvs ∈ permutations [(a, va); (b, vb); (c, vc)] ->
  exists w0 w',
    (do r1 <- operator_plus (call (S (S (S (S fuel))))) a b ;
     operator_plus (call (S (S (S (S fuel))))) r1 c) w = Ok (S (length (heap w))) w0
    /\ heap w0 !! S (length (heap w)) = Some (mkImpl LAZY_NOT_READY 0 [] [])
    /\ assign_all (call (S (S (S (S fuel))))) gvs w0 = Ok tt w'
    /\ heap w' !! S (length (heap w)) = Some (mkImpl LAZY_READY (va + vb + vc) [] []).
Proof.
  intros Hab Hac Hbc Ha Hb Hc R1 R2 Hperm.
  pose proof (lookup_lt_Some _ _ _ Ha) as La.
  pose proof (lookup_lt_Some _ _ _ Hb) as Lb.
  pose proof (lookup_lt_Some _ _ _ Hc) as Lc.
  simpl in Hperm.
  repeat (apply elem_of_cons in Hperm as [->|Hperm]); [..|by apply elem_of_nil in Hperm].
  all: eexists _, _; split;
    [ rewrite bind_run; construct; rewrite ret_run; cbv beta iota;
      rewrite operator_plus_run, !length_heap_put, !length_heap_alloc;
      rewrite bind_run; erewrite on_ready_run; [|side]; fields; reflexivity |].
  all: split; [side|].
  all: split; [cbn [assign_all]; exec; reflexivity|].
  all: side.
Qed.

Lemma nested_sum_any_order_witness :
  exists w0 w',
    (do r1 <- operator_plus (call 4) 0%nat 1%nat ;
     operator_plus (call 4) r1 2%nat)
      (mkWorld [mkImpl LAZY_NOT_READY 0 [] []; mkImpl LAZY_NOT_READY 0 [] [];
                mkImpl LAZY_NOT_READY 0 [] []] [] [] ctx_invalid 0) = Ok 4%nat w0
    /\ heap w0 !! 4%nat = Some (mkImpl LAZY_NOT_READY 0 [] [])
    /\ assign_all (call 4) [(2%nat, 11); (0%nat, 10); (1%nat, 5)] w0 = Ok tt w'
    /\ heap w' !! 4%nat = Some (mkImpl LAZY_READY (10 + 5 + 11) [] []).
Proof.
  apply (nested_sum_any_order 0
           (mkWorld [mkImpl LAZY_NOT_READY 0 [] []; mkImpl LAZY_NOT_READY 0 [] [];
                     mkImpl LAZY_NOT_READY 0 [] []] [] [] ctx_invalid 0)
           0%nat 1%nat 2%nat 0 0 0 [] [] [] 10 5 11
           [(2%nat, 11); (0%nat, 10); (1%nat, 5)]
           ltac:(discriminate) ltac:(discriminate) ltac:(discriminate)
           eq_refl eq_refl eq_refl eq_refl eq_refl).
  by apply (bool_decide_unpack _).
Defined.
